(** * ringbuffer: a power-of-two ring buffer of fixed-size elements

    A shallow embedding of [ring_buffer.c] / [ring_buffer.h] and the
    properties of its five entry points.

    Conventions of the embedding.
    - [uint32_t] values are integers in [0, 2^32); every C operation that can
      leave that range is followed by [wrap32].  [size_t] is at least as wide,
      so converting a [uint32_t] result to [size_t] and back changes nothing.
    - The region [rb->buffer] points to is carried in the record as the list
      of its bytes; the caller's [src] / [dst] areas are separate lists (the
      C contract of [memcpy]: the areas do not overlap).
    - Undefined behaviour (division by zero, a [memcpy] outside either area)
      is the result [None]. *)

From Stdlib Require Import ZArith List Lia Bool.
From Stdlib.Strings Require Import Byte.
Import ListNotations.
Local Open Scope Z_scope.

(** ** Machine arithmetic *)

Definition wrap32 (x : Z) : Z := x mod 2 ^ 32.

(** [#define min(a, b) ((a) < (b) ? (a):(b))] *)
Definition min (a b : Z) : Z := if a <? b then a else b.

(** [EINVAL] of <errno.h>. *)
Definition EINVAL : Z := 22.

(** ** The error monad of undefined behaviour *)

Definition bind {A B : Type} (m : option A) (k : A -> option B) : option B :=
  match m with
  | Some a => k a
  | None => None
  end.

Notation "x <- m ;; k" := (bind m (fun x => k))
  (at level 61, m at next level, right associativity).

(** ** struct ring *)

Record ring : Type := mkRing {
  buffer : list byte;
  size : Z;
  mask : Z;
  esize : Z;
  head : Z;
  tail : Z
}.

Definition set_buffer (rb : ring) (b : list byte) : ring :=
  mkRing b (size rb) (mask rb) (esize rb) (head rb) (tail rb).

Definition set_mask (rb : ring) (m : Z) : ring :=
  mkRing (buffer rb) (size rb) m (esize rb) (head rb) (tail rb).

Definition set_head (rb : ring) (h : Z) : ring :=
  mkRing (buffer rb) (size rb) (mask rb) (esize rb) h (tail rb).

Definition set_tail (rb : ring) (t : Z) : ring :=
  mkRing (buffer rb) (size rb) (mask rb) (esize rb) (head rb) t.

(** ** memcpy

    [memcpy dst d src s n] is [memcpy(dst + d, src + s, n)]: it is defined
    when both byte ranges lie inside their areas. *)

Definition nbytes (l : list byte) : Z := Z.of_nat (length l).

(** The byte [i] bytes into an area, if there is one. *)
Definition byte_at (l : list byte) (i : Z) : option byte :=
  nth_error l (Z.to_nat i).

(** The [n] bytes that start [off] bytes into an area. *)
Definition bytes_at (l : list byte) (off n : Z) : list byte :=
  firstn (Z.to_nat n) (skipn (Z.to_nat off) l).

Definition memcpy (dst : list byte) (d : Z) (src : list byte) (s n : Z)
  : option (list byte) :=
  if (0 <=? d) && (0 <=? s) && (0 <=? n)
     && (d + n <=? nbytes dst) && (s + n <=? nbytes src)
  then Some (firstn (Z.to_nat d) dst ++ bytes_at src s n
             ++ skipn (Z.to_nat (d + n)) dst)
  else None.

(** ** ring_buffer_init (ring_buffer.c, lines 33-53)

    [rb] is the struct as the caller hands it over; the result is the return
    value and the struct afterwards. *)

Definition ring_buffer_init (rb : ring) (buf : list byte) (size esize : Z)
  : option (Z * ring) :=
  if esize =? 0 then None
  else
    let size := size / esize in
    if negb (Z.land size (wrap32 (size - 1)) =? 0) then Some (- EINVAL, rb)
    else
      let rb := mkRing buf size (mask rb) esize 0 0 in
      if size <? 2 then Some (- EINVAL, set_mask rb 0)
      else Some (0, set_mask rb (wrap32 (size - 1))).

(** ** ring_space, ring_used (lines 63-78) *)

Definition ring_space (rb : ring) : Z :=
  wrap32 (size rb - wrap32 (head rb - tail rb)).

Definition ring_used (rb : ring) : Z :=
  wrap32 (head rb - tail rb).

(** ** The split copy (lines 82-93 and 125-136)

    [__ring_put] and [__ring_get] open with the same statements: mask the
    logical index, scale to bytes unless the element is one byte, and cut the
    run at the end of the region.  [ring_span] is that prefix; it yields the
    byte offset of the first segment, its length [l], and the length
    [len - l] of the second segment, which starts at byte 0. *)

Definition ring_span (rb : ring) (len offset : Z) : Z * Z * Z :=
  let size := size rb in
  let esize := esize rb in
  let offset := Z.land offset (mask rb) in
  let '(offset, size, len) :=
    if negb (esize =? 1)
    then (wrap32 (offset * esize), wrap32 (size * esize), wrap32 (len * esize))
    else (offset, size, len) in
  let l := min len (wrap32 (size - offset)) in
  (offset, l, wrap32 (len - l)).

(** [__ring_put] (lines 80-97): the region after the two copies. *)
Definition __ring_put (rb : ring) (src : list byte) (len offset : Z)
  : option ring :=
  let '(offset, l, rest) := ring_span rb len offset in
  b1 <- memcpy (buffer rb) offset src 0 l ;;
  b2 <- memcpy b1 0 src l rest ;;
  Some (set_buffer rb b2).

(** [ring_put] (lines 110-121): the struct afterwards and the return value. *)
Definition ring_put (rb : ring) (buf : list byte) (len : Z)
  : option (ring * Z) :=
  let l := wrap32 (ring_space rb) in
  let len := min len l in
  rb <- __ring_put rb buf len (head rb) ;;
  let rb := set_head rb (wrap32 (head rb + len)) in
  Some (rb, len).

(** [__ring_get] (lines 123-139): the destination after the two copies. *)
Definition __ring_get (rb : ring) (dst : list byte) (len offset : Z)
  : option (list byte) :=
  let '(offset, l, rest) := ring_span rb len offset in
  d1 <- memcpy dst 0 (buffer rb) offset l ;;
  memcpy d1 l (buffer rb) 0 rest.

(** [ring_get] (lines 152-162): the struct and the destination afterwards,
    and the return value. *)
Definition ring_get (rb : ring) (buf : list byte) (len : Z)
  : option (ring * list byte * Z) :=
  let l := wrap32 (ring_used rb) in
  let len := min l len in
  buf <- __ring_get rb buf len (tail rb) ;;
  let rb := set_tail rb (wrap32 (tail rb + len)) in
  Some (rb, buf, len).

(** The two segments [ring_span] computes for [n] elements at logical
    index [i] are in bounds when the first lies inside the region, the
    second (which starts at byte 0) stops at or before the first begins, and
    together they are the [n * esize] bytes of the run. *)
Definition span_in_bounds (rb : ring) (n i : Z) : Prop :=
  let '(off, l, rest) := ring_span rb n i in
  let bytes := size rb * esize rb in
  (0 <= off /\ 0 <= l /\ off + l <= bytes /\ bytes <= nbytes (buffer rb))
  /\ (0 <= rest /\ rest <= off)
  /\ l = Z.min (n * esize rb) (bytes - off)
  /\ l + rest = n * esize rb.

(** ** Calls, and runs of calls

    A caller's view of the buffer after initialisation: a sequence of
    [ring_put] / [ring_get] calls, each with its own source or destination
    area, and what each call returned (for a [ring_get], with the
    destination area afterwards). *)

Inductive call : Type :=
| Put (src : list byte) (len : Z)
| Get (dst : list byte) (len : Z).

Inductive outcome : Type :=
| Wrote (n : Z)
| Read (n : Z) (dst : list byte).

Definition step (rb : ring) (c : call) : option (ring * outcome) :=
  match c with
  | Put src len => r <- ring_put rb src len ;; Some (fst r, Wrote (snd r))
  | Get dst len =>
      r <- ring_get rb dst len ;; Some (fst (fst r), Read (snd r) (snd (fst r)))
  end.

Fixpoint run (rb : ring) (cs : list call) : option (ring * list outcome) :=
  match cs with
  | [] => Some (rb, [])
  | c :: cs =>
      r <- step rb c ;;
      r' <- run (fst r) cs ;;
      Some (fst r', snd r :: snd r')
  end.

(** A call hands over an area that holds the number of elements it asks
    for, and a count that is a [uint32_t]. *)
Definition call_ok (e : Z) (c : call) : Prop :=
  match c with
  | Put a n | Get a n => 0 <= n < 2 ^ 32 /\ n * e <= nbytes a
  end.

(** ** The states of an initialised buffer *)

Definition is_pow2 (n : Z) : Prop := exists k, 0 <= k /\ n = 2 ^ k.

(** The representation invariant: what [ring_buffer_init] establishes on
    success (the region really has the [size] bytes the caller announced)
    and what [ring_put] / [ring_get] maintain. *)
Record ring_inv (rb : ring) : Prop := mkInv {
  inv_pow2 : is_pow2 (size rb);
  inv_size : 2 <= size rb;
  inv_mask : mask rb = size rb - 1;
  inv_esize : 0 < esize rb;
  inv_bytes : size rb * esize rb < 2 ^ 32;
  inv_region : size rb * esize rb <= nbytes (buffer rb);
  inv_head : 0 <= head rb < 2 ^ 32;
  inv_tail : 0 <= tail rb < 2 ^ 32;
  inv_used : wrap32 (head rb - tail rb) <= size rb
}.

(** The states a caller can reach through the interface: a successful
    [ring_buffer_init] on a region of [sz] bytes, then any calls. *)
Inductive reachable : ring -> Prop :=
| reach_init rb0 buf sz es rb :
    0 <= sz < 2 ^ 32 -> 0 < es < 2 ^ 32 -> sz <= nbytes buf ->
    ring_buffer_init rb0 buf sz es = Some (0, rb) ->
    reachable rb
| reach_put rb src n rb' r :
    reachable rb -> 0 <= n < 2 ^ 32 ->
    ring_put rb src n = Some (rb', r) ->
    reachable rb'
| reach_get rb dst n rb' dst' r :
    reachable rb -> 0 <= n < 2 ^ 32 ->
    ring_get rb dst n = Some (rb', dst', r) ->
    reachable rb'.

(** ** The stored elements

    The physical slot of logical index [i] starts [(i & mask) * esize] bytes
    into the region; the stored elements are those of the logical indices
    [tail, tail + 1, ..., head - 1], counted modulo 2^32. *)

Definition slot (rb : ring) (i : Z) : Z := Z.land i (mask rb) * esize rb.

Definition element (rb : ring) (i : Z) : list byte :=
  bytes_at (buffer rb) (slot rb i) (esize rb).

Definition indices (from n : Z) : list Z :=
  map (fun j => wrap32 (from + Z.of_nat j)) (seq 0 (Z.to_nat n)).

Definition contents (rb : ring) : list (list byte) :=
  map (element rb) (indices (tail rb) (ring_used rb)).

(** The first [n] elements of [e] bytes of an area. *)
Definition elements (e n : Z) (a : list byte) : list (list byte) :=
  map (fun j => bytes_at a (Z.of_nat j * e) e) (seq 0 (Z.to_nat n)).

(** ** The queue of the specification

    A bounded first-in first-out queue of elements with no indices at all:
    [put] appends as many of the requested elements as fit, [get] removes as
    many of the requested elements as there are from the front and lays them
    out at the start of the destination. *)

Module Fifo.

Record t : Type := mk {
  capacity : Z;
  element_size : Z;
  queue : list (list byte)
}.

Definition used (q : t) : Z := Z.of_nat (length (queue q)).

Definition space (q : t) : Z := capacity q - used q.

Definition put (q : t) (src : list byte) (requested : Z) : t * Z :=
  let actual := Z.min requested (space q) in
  (mk (capacity q) (element_size q)
      (queue q ++ elements (element_size q) actual src),
   actual).

Definition get (q : t) (dst : list byte) (requested : Z)
  : t * list byte * Z :=
  let actual := Z.min requested (used q) in
  (mk (capacity q) (element_size q) (skipn (Z.to_nat actual) (queue q)),
   concat (firstn (Z.to_nat actual) (queue q))
     ++ skipn (Z.to_nat (actual * element_size q)) dst,
   actual).

Definition step (q : t) (c : call) : t * outcome :=
  match c with
  | Put src n => let r := put q src n in (fst r, Wrote (snd r))
  | Get dst n =>
      let r := get q dst n in (fst (fst r), Read (snd r) (snd (fst r)))
  end.

Fixpoint run (q : t) (cs : list call) : t * list outcome :=
  match cs with
  | [] => (q, [])
  | c :: cs =>
      let r := step q c in
      let r' := run (fst r) cs in
      (fst r', snd r :: snd r')
  end.

End Fifo.

(** The queue an initialised buffer stands for. *)
Definition abs (rb : ring) : Fifo.t :=
  Fifo.mk (size rb) (esize rb) (contents rb).

(** ** Sample states

    The buffer of [main.c]: a region of 8 bytes holding 4 elements of 2
    bytes, with the head and tail counters left open. *)

Definition sample (h t : Z) : ring :=
  mkRing [x0a; x0b; x1a; x1b; x2a; x2b; x3a; x3b] 4 3 2 h t.

Definition UINT32_MAX : Z := 2 ^ 32 - 1.

(** ** Counts over a run *)

(** A call whose count is a [uint32_t]. *)
Definition uint32_count (c : call) : Prop :=
  match c with
  | Put _ n | Get _ n => 0 <= n < 2 ^ 32
  end.

(** The elements the calls of a run reported written, and reported read. *)
Fixpoint written (outs : list outcome) : Z :=
  match outs with
  | [] => 0
  | Wrote n :: outs => n + written outs
  | Read _ _ :: outs => written outs
  end.

Fixpoint fetched (outs : list outcome) : Z :=
  match outs with
  | [] => 0
  | Wrote _ :: outs => fetched outs
  | Read n _ :: outs => n + fetched outs
  end.

(** ** main.c: one round of the random-length test

    The body of the loops of lines 48-72 and 97-122, without its printing.
    [tmp0] is the area [malloc(write_len)] returned, [write_len] bytes of
    unspecified content; [v] is the two bytes of [(uint16_t) i]. *)

(** [((uint16_t * )tmp)[j] = i]: a two-byte store [2 * j] bytes into
    [tmp]. *)
Definition store16 (tmp : list byte) (j : Z) (v : list byte)
  : option (list byte) :=
  memcpy tmp (2 * j) v 0 2.

(** Lines 52-54 and 101-103, from index [j] with [todo] iterations left. *)
Fixpoint fill_from (tmp v : list byte) (j : Z) (todo : nat)
  : option (list byte) :=
  match todo with
  | O => Some tmp
  | Datatypes.S todo =>
      tmp <- store16 tmp j v ;;
      fill_from tmp v (j + 1) todo
  end.

(** The round: fill [tmp], write [write_len] elements from it, read
    [write_len] elements back into it.  The result is the struct afterwards
    and whether both [TEST]s held (a [TEST] that fails jumps to [_err]). *)
Definition test_round (rb : ring) (tmp0 v : list byte) (write_len : Z)
  : option (ring * bool) :=
  tmp <- fill_from tmp0 v 0 (Z.to_nat write_len) ;;
  w <- ring_put rb tmp write_len ;;
  if negb (snd w =? write_len) then Some (fst w, false)
  else
    r <- ring_get (fst w) tmp write_len ;;
    Some (fst (fst r), snd r =? write_len).

(** * Properties *)

(** ** Machine arithmetic *)

Lemma wrap32_small (x : Z) : 0 <= x < 2 ^ 32 -> wrap32 x = x.
Proof. intros H. unfold wrap32. apply Z.mod_small. exact H. Qed.

Lemma wrap32_range (x : Z) : 0 <= wrap32 x < 2 ^ 32.
Proof. unfold wrap32. apply Z.mod_pos_bound. reflexivity. Qed.

Lemma min_Zmin (a b : Z) : min a b = Z.min a b.
Proof. unfold min. destruct (Z.ltb_spec a b); lia. Qed.

(** [n & (n - 1)] clears the lowest set bit: it is zero exactly on the
    powers of two (and on zero, which the caller of the test excludes). *)
Lemma land_pred_pow2 (n : Z) :
  0 < n -> (Z.land n (n - 1) = 0 <-> is_pow2 n).
Proof.
  intros Hn. split.
  - intros Hland.
    exists (Z.log2 n). split; [apply Z.log2_nonneg|].
    destruct (Z.log2_spec n Hn) as [Hlo Hhi].
    destruct (Z.eq_dec n (2 ^ Z.log2 n)) as [|Hne]; [assumption|exfalso].
    assert (Hlog : Z.log2 (n - 1) = Z.log2 n).
    { apply Z.log2_unique; [apply Z.log2_nonneg|lia]. }
    assert (Hbit : Z.testbit (Z.land n (n - 1)) (Z.log2 n) = true).
    { rewrite Z.land_spec, Z.bit_log2 by assumption.
      rewrite <- Hlog. rewrite Z.bit_log2; [reflexivity|].
      pose proof (Z.pow_pos_nonneg 2 (Z.log2 n) eq_refl (Z.log2_nonneg n)).
      lia. }
    rewrite Hland, Z.bits_0 in Hbit. discriminate.
  - intros (k & Hk & ->).
    replace (2 ^ k - 1) with (Z.ones k) by (rewrite Z.ones_equiv; lia).
    rewrite Z.land_ones by assumption. apply Z_mod_same_full.
Qed.

(** The test of line 38 on a [uint32_t]. *)
Lemma pow2_test (n : Z) :
  0 <= n < 2 ^ 32 ->
  (Z.land n (wrap32 (n - 1)) = 0 <-> n = 0 \/ is_pow2 n).
Proof.
  intros Hn. destruct (Z.eq_dec n 0) as [->|Hne].
  - rewrite Z.land_0_l. tauto.
  - rewrite wrap32_small by lia. rewrite land_pred_pow2 by lia.
    split; [tauto|]. intros [?|?]; [contradiction|assumption].
Qed.

(** ** ring_buffer_init *)

Lemma three_not_pow2 : ~ is_pow2 3.
Proof.
  intros H. apply land_pred_pow2 in H; [|lia]. discriminate H.
Qed.

(** The three exits of [ring_buffer_init], by the element count. *)
Lemma ring_buffer_init_cases (rb : ring) (buf : list byte) (sz es : Z) :
  0 <= sz < 2 ^ 32 -> 0 < es < 2 ^ 32 ->
  let n := sz / es in
  (~ (n = 0 \/ is_pow2 n)
   /\ ring_buffer_init rb buf sz es = Some (- EINVAL, rb))
  \/ (n < 2 /\ (n = 0 \/ is_pow2 n)
      /\ ring_buffer_init rb buf sz es
         = Some (- EINVAL, mkRing buf n 0 es 0 0))
  \/ (2 <= n /\ is_pow2 n
      /\ ring_buffer_init rb buf sz es
         = Some (0, mkRing buf n (n - 1) es 0 0)).
Proof.
  intros Hsz Hes n.
  assert (Hn : 0 <= n < 2 ^ 32).
  { subst n. split; [apply Z.div_pos; lia|].
    apply Z.le_lt_trans with sz; [|lia].
    apply Z.div_le_upper_bound; [lia|].
    replace sz with (1 * sz) at 1 by lia.
    apply Z.mul_le_mono_nonneg_r; lia. }
  unfold ring_buffer_init. fold n. clearbody n.
  destruct (Z.eqb_spec es 0) as [|_]; [lia|].
  destruct (Z.eqb_spec (Z.land n (wrap32 (n - 1))) 0) as [Hz|Hnz]; cbn [negb].
  - apply pow2_test in Hz; [|assumption]. right.
    destruct (Z.ltb_spec n 2) as [Hlt|Hge].
    + left. unfold set_mask. cbn. tauto.
    + right. unfold set_mask. cbn. rewrite wrap32_small by lia.
      split; [assumption|]. split; [|reflexivity].
      destruct Hz as [?|?]; [lia|assumption].
  - left. split; [|reflexivity].
    intros H. apply Hnz. apply pow2_test; assumption.
Qed.

(** C6: with a non-zero element size, [ring_buffer_init] returns [-EINVAL]
    exactly when the element count [size / esize] (truncating division) is
    not a power of two or is below 2; 3 elements and 1 element are refused;
    2, 4, 8, ... elements are accepted, and then the call returns 0 with
    [head = tail = 0], [mask = count - 1], the count as [size] and the
    region and element size recorded. *)
Theorem ring_buffer_init_spec (rb : ring) (buf : list byte) (sz es : Z) :
  0 <= sz < 2 ^ 32 -> 0 < es < 2 ^ 32 ->
  exists r rb',
    ring_buffer_init rb buf sz es = Some (r, rb')
    /\ (r = - EINVAL <-> ~ is_pow2 (sz / es) \/ sz / es < 2)
    /\ (r <> - EINVAL ->
        r = 0 /\ rb' = mkRing buf (sz / es) (sz / es - 1) es 0 0)
    /\ (sz / es = 3 -> r = - EINVAL)
    /\ (sz / es = 1 -> r = - EINVAL)
    /\ (forall k, 1 <= k -> sz / es = 2 ^ k -> r = 0).
Proof.
  intros Hsz Hes.
  assert (Hiff : forall r,
            (r = - EINVAL <-> ~ is_pow2 (sz / es) \/ sz / es < 2) ->
            (sz / es = 3 -> r = - EINVAL) /\ (sz / es = 1 -> r = - EINVAL)
            /\ (forall k, 1 <= k -> sz / es = 2 ^ k -> r <> - EINVAL)).
  { intros r Hr. repeat split.
    - intros E. apply Hr. left. rewrite E. exact three_not_pow2.
    - intros E. apply Hr. right. lia.
    - intros k Hk E Hneg. apply Hr in Hneg. destruct Hneg as [Hnp|Hlt].
      + apply Hnp. exists k. split; [lia|assumption].
      + assert (2 ^ 1 <= 2 ^ k) by (apply Z.pow_le_mono_r; lia).
        change (2 ^ 1) with 2 in *. lia. }
  destruct (ring_buffer_init_cases rb buf sz es Hsz Hes)
    as [(Hnp & E)|[(Hlt & Hp & E)|(Hge & Hp & E)]];
    rewrite E; eexists _, _; (split; [reflexivity|]).
  - assert (Hr : - EINVAL = - EINVAL <-> ~ is_pow2 (sz / es) \/ sz / es < 2).
    { split; [|reflexivity]. intros _. left. tauto. }
    destruct (Hiff _ Hr) as (H3 & H1 & H2).
    repeat split; try tauto. intros k Hk E'. destruct (H2 k Hk E' eq_refl).
  - assert (Hr : - EINVAL = - EINVAL <-> ~ is_pow2 (sz / es) \/ sz / es < 2).
    { split; [|reflexivity]. intros _. right. assumption. }
    destruct (Hiff _ Hr) as (H3 & H1 & H2).
    repeat split; try tauto. intros k Hk E'. destruct (H2 k Hk E' eq_refl).
  - assert (Hr : 0 = - EINVAL <-> ~ is_pow2 (sz / es) \/ sz / es < 2).
    { split; [discriminate|]. intros [Hnp|Hlt]; [contradiction|lia]. }
    destruct (Hiff _ Hr) as (H3 & H1 & H2).
    repeat split; try tauto.
Qed.

Lemma ring_buffer_init_spec_witness :
  exists r rb',
    ring_buffer_init (mkRing [] 0 0 0 0 0) (repeat x00 8) 8 2 = Some (r, rb')
    /\ (r = - EINVAL <-> ~ is_pow2 (8 / 2) \/ 8 / 2 < 2)
    /\ (r <> - EINVAL ->
        r = 0 /\ rb' = mkRing (repeat x00 8) (8 / 2) (8 / 2 - 1) 2 0 0)
    /\ (8 / 2 = 3 -> r = - EINVAL)
    /\ (8 / 2 = 1 -> r = - EINVAL)
    /\ (forall k, 1 <= k -> 8 / 2 = 2 ^ k -> r = 0).
Proof.
  apply (ring_buffer_init_spec (mkRing [] 0 0 0 0 0) (repeat x00 8) 8 2); lia.
Defined.

(** What a refused initialisation leaves behind: below 2 elements the struct
    is rewritten with [mask = 0]; on a count that is not a power of two the
    function returns before it writes anything. *)
Lemma refused_init_state (rb : ring) (buf : list byte) (sz es : Z) rb' :
  0 <= sz < 2 ^ 32 -> 0 < es < 2 ^ 32 ->
  ring_buffer_init rb buf sz es = Some (- EINVAL, rb') ->
  (sz / es < 2 /\ mask rb' = 0 /\ head rb' = 0 /\ tail rb' = 0)
  \/ (2 < sz / es /\ ~ is_pow2 (sz / es) /\ rb' = rb).
Proof.
  intros Hsz Hes E.
  destruct (ring_buffer_init_cases rb buf sz es Hsz Hes)
    as [(Hnp & E')|[(Hlt & Hp & E')|(Hge & Hp & E')]];
    rewrite E' in E; inversion E; subst.
  - right. assert (0 <= sz / es) by (apply Z.div_pos; lia).
    assert (sz / es <> 1) by (intros E1; apply Hnp; right; exists 0; lia).
    assert (sz / es <> 2) by (intros E1; apply Hnp; right; exists 1; lia).
    repeat split; try lia. tauto.
  - left. cbn. tauto.
Qed.

(** C7: a struct that was in use with 4 elements ([mask = 3]) and is
    initialised again over a 6-byte region with 2-byte elements (3 elements,
    not a power of two): the call returns [-EINVAL] and the struct is what it
    was, its mask still 3. *)
Theorem ring_buffer_init_refused_keeps_mask :
  ring_buffer_init (mkRing (repeat x00 8) 4 3 2 0 0) (repeat x00 6) 6 2
    = Some (- EINVAL, mkRing (repeat x00 8) 4 3 2 0 0)
  /\ mask (mkRing (repeat x00 8) 4 3 2 0 0) <> 0.
Proof. split; [reflexivity|discriminate]. Qed.

(** ** Areas of bytes and memcpy *)

Lemma byte_at_ext (l l' : list byte) :
  (forall i, 0 <= i -> byte_at l i = byte_at l' i) -> l = l'.
Proof.
  intros H. apply nth_error_ext. intros n.
  specialize (H (Z.of_nat n) (Nat2Z.is_nonneg n)).
  unfold byte_at in H. rewrite Nat2Z.id in H. exact H.
Qed.

Lemma nbytes_bytes_at (l : list byte) (off n : Z) :
  0 <= off -> 0 <= n -> off + n <= nbytes l -> nbytes (bytes_at l off n) = n.
Proof.
  unfold nbytes, bytes_at. intros Ho Hn Hl.
  rewrite length_firstn, length_skipn. lia.
Qed.

Lemma byte_at_bytes_at (l : list byte) (off n k : Z) :
  0 <= off -> 0 <= k ->
  byte_at (bytes_at l off n) k = if k <? n then byte_at l (off + k) else None.
Proof.
  unfold byte_at, bytes_at. intros Ho Hk.
  rewrite nth_error_firstn, nth_error_skipn.
  destruct (Nat.ltb_spec (Z.to_nat k) (Z.to_nat n)), (Z.ltb_spec k n);
    try lia; [|reflexivity].
  f_equal. lia.
Qed.

Lemma memcpy_defined (dst : list byte) (d : Z) (src : list byte) (s n : Z) :
  0 <= d -> 0 <= s -> 0 <= n -> d + n <= nbytes dst -> s + n <= nbytes src ->
  exists r, memcpy dst d src s n = Some r.
Proof.
  intros Hd Hs Hn Hdst Hsrc. unfold memcpy.
  destruct (Z.leb_spec 0 d), (Z.leb_spec 0 s), (Z.leb_spec 0 n),
    (Z.leb_spec (d + n) (nbytes dst)), (Z.leb_spec (s + n) (nbytes src));
    try lia.
  cbn. eexists. reflexivity.
Qed.

Lemma memcpy_bounds (dst : list byte) (d : Z) (src : list byte) (s n : Z) r :
  memcpy dst d src s n = Some r ->
  0 <= d /\ 0 <= s /\ 0 <= n /\ d + n <= nbytes dst /\ s + n <= nbytes src.
Proof.
  unfold memcpy.
  destruct (Z.leb_spec 0 d), (Z.leb_spec 0 s), (Z.leb_spec 0 n),
    (Z.leb_spec (d + n) (nbytes dst)), (Z.leb_spec (s + n) (nbytes src));
    cbn; try discriminate.
  intros _. lia.
Qed.

Lemma memcpy_nbytes (dst : list byte) (d : Z) (src : list byte) (s n : Z) r :
  memcpy dst d src s n = Some r -> nbytes r = nbytes dst.
Proof.
  intros E.
  pose proof (memcpy_bounds _ _ _ _ _ _ E) as (Hd & Hs & Hn & Hdst & Hsrc).
  unfold memcpy in E. destruct (_ && _); [|discriminate].
  injection E as <-.
  pose proof (nbytes_bytes_at src s n Hs Hn Hsrc) as Hl.
  unfold nbytes in *.
  rewrite !length_app, length_firstn, length_skipn. lia.
Qed.

(** One byte of the destination area after a copy. *)
Lemma memcpy_byte_at (dst : list byte) (d : Z) (src : list byte) (s n : Z) r i :
  memcpy dst d src s n = Some r -> 0 <= i ->
  byte_at r i = if (d <=? i) && (i <? d + n)
                then byte_at src (s + (i - d))
                else byte_at dst i.
Proof.
  intros E Hi.
  pose proof (memcpy_bounds _ _ _ _ _ _ E) as (Hd & Hs & Hn & Hdst & Hsrc).
  unfold memcpy in E. destruct (_ && _); [|discriminate].
  injection E as <-.
  assert (Hl1 : length (firstn (Z.to_nat d) dst) = Z.to_nat d).
  { rewrite length_firstn. unfold nbytes in Hdst. lia. }
  assert (Hl2 : length (bytes_at src s n) = Z.to_nat n).
  { pose proof (nbytes_bytes_at src s n Hs Hn Hsrc) as H.
    unfold nbytes in H. lia. }
  unfold byte_at at 1. rewrite !nth_error_app, Hl1, Hl2.
  destruct (Z.leb_spec d i), (Z.ltb_spec i (d + n)),
    (Nat.ltb_spec (Z.to_nat i) (Z.to_nat d)),
    (Nat.ltb_spec (Z.to_nat i - Z.to_nat d) (Z.to_nat n));
    cbn [andb]; try lia.
  - pose proof (byte_at_bytes_at src s n (i - d) Hs) as Hb.
    unfold byte_at at 1 in Hb. rewrite Z2Nat.inj_sub in Hb by lia.
    rewrite Hb by lia. destruct (Z.ltb_spec (i - d) n); [reflexivity|lia].
  - rewrite nth_error_skipn. unfold byte_at. f_equal. lia.
  - rewrite nth_error_firstn.
    destruct (Nat.ltb_spec (Z.to_nat i) (Z.to_nat d)); [reflexivity|lia].
  - rewrite nth_error_firstn.
    destruct (Nat.ltb_spec (Z.to_nat i) (Z.to_nat d)); [reflexivity|lia].
Qed.

(** ** Arithmetic of cyclic offsets *)

Lemma mod_once_up (a s : Z) :
  0 < s -> 0 <= a < 2 * s -> a mod s = if a <? s then a else a - s.
Proof.
  intros Hs Ha. destruct (Z.ltb_spec a s).
  - apply Z.mod_small. lia.
  - symmetry. apply Z.mod_unique with 1; lia.
Qed.

Lemma mod_once_down (a s : Z) :
  0 < s -> - s <= a < s -> a mod s = if a <? 0 then a + s else a.
Proof.
  intros Hs Ha. destruct (Z.ltb_spec a 0).
  - symmetry. apply Z.mod_unique with (-1); lia.
  - apply Z.mod_small. lia.
Qed.

Lemma scaled_div (x e b : Z) : 0 <= b < e -> (x * e + b) / e = x.
Proof.
  intros Hb. symmetry. apply Z.div_unique with b; lia.
Qed.

Lemma scaled_mod (x m e b : Z) :
  0 < m -> 0 <= b < e -> (x * e + b) mod (m * e) = (x mod m) * e + b.
Proof.
  intros Hm Hb. symmetry.
  pose proof (Z.mod_pos_bound x m Hm) as Hr.
  pose proof (Z.div_mod x m ltac:(lia)) as Hx.
  apply Z.mod_unique with (x / m); [left; nia|].
  rewrite Hx at 1. ring.
Qed.

Lemma scaled_lt (x y e b : Z) : 0 <= b < e -> (x * e + b < y * e <-> x < y).
Proof. intros Hb. split; intros H; nia. Qed.

(** ** Consequences of the representation invariant *)

Section Invariant.

Variable rb : ring.
Hypothesis Hinv : ring_inv rb.

Lemma size_pos : 0 < size rb.
Proof. pose proof (inv_size rb Hinv). lia. Qed.

Lemma size_lt_32 : size rb < 2 ^ 32.
Proof.
  pose proof (inv_bytes rb Hinv). pose proof (inv_esize rb Hinv).
  pose proof size_pos. nia.
Qed.

Lemma size_divides_32 : (size rb | 2 ^ 32).
Proof.
  pose proof size_lt_32 as Hlt.
  destruct (inv_pow2 rb Hinv) as (k & Hk & E). rewrite E in *.
  assert (k < 32).
  { destruct (Z.lt_ge_cases k 32) as [|Hge]; [assumption|].
    apply (Z.pow_le_mono_r 2) in Hge; lia. }
  exists (2 ^ (32 - k)). rewrite <- Z.pow_add_r by lia. f_equal. lia.
Qed.

(** Masking is reduction modulo the element count. *)
Lemma land_mask (i : Z) : Z.land i (mask rb) = i mod size rb.
Proof.
  rewrite (inv_mask rb Hinv).
  destruct (inv_pow2 rb Hinv) as (k & Hk & E). rewrite E.
  replace (2 ^ k - 1) with (Z.ones k) by (rewrite Z.ones_equiv; lia).
  apply Z.land_ones. assumption.
Qed.

(** Wrapping a logical index at 2^32 does not move its slot. *)
Lemma wrap32_mod_size (i : Z) : wrap32 i mod size rb = i mod size rb.
Proof. unfold wrap32. apply Z.mod_mod_divide. exact size_divides_32. Qed.

Lemma slot_range (i : Z) : 0 <= i mod size rb < size rb.
Proof. apply Z.mod_pos_bound. exact size_pos. Qed.

Lemma ring_used_range : 0 <= ring_used rb <= size rb.
Proof.
  unfold ring_used. pose proof (wrap32_range (head rb - tail rb)).
  pose proof (inv_used rb Hinv). lia.
Qed.

Lemma ring_space_eq : ring_space rb = size rb - ring_used rb.
Proof.
  unfold ring_space. fold (ring_used rb).
  pose proof ring_used_range. pose proof size_lt_32.
  apply wrap32_small. lia.
Qed.

(** No product of [ring_span] wraps, and its results are these. *)
Lemma ring_span_eq (n i : Z) :
  0 <= n <= size rb ->
  let off := (i mod size rb) * esize rb in
  let l := Z.min (n * esize rb) (size rb * esize rb - off) in
  ring_span rb n i = (off, l, n * esize rb - l).
Proof.
  intros Hn off l. unfold ring_span. rewrite land_mask. fold off.
  pose proof (slot_range i) as Hq.
  pose proof (inv_esize rb Hinv) as He.
  pose proof (inv_bytes rb Hinv) as Hb.
  assert (Hoff : 0 <= off < size rb * esize rb) by (subst off; nia).
  assert (Hlen : 0 <= n * esize rb <= size rb * esize rb) by nia.
  assert (E : (if negb (esize rb =? 1)
               then (wrap32 off, wrap32 (size rb * esize rb),
                     wrap32 (n * esize rb))
               else (i mod size rb, size rb, n))
              = (off, size rb * esize rb, n * esize rb)).
  { destruct (Z.eqb_spec (esize rb) 1) as [E1|_]; cbn [negb].
    - subst off. rewrite E1, !Z.mul_1_r. reflexivity.
    - rewrite !wrap32_small by lia. reflexivity. }
  rewrite E. rewrite min_Zmin.
  rewrite (wrap32_small (size rb * esize rb - off)) by lia.
  fold l. rewrite wrap32_small by lia. reflexivity.
Qed.

End Invariant.

(** ** The split copy, byte by byte *)

Ltac cases_cmp :=
  repeat match goal with
    | |- context [Z.ltb ?a ?b] => destruct (Z.ltb_spec a b)
    | |- context [Z.leb ?a ?b] => destruct (Z.leb_spec a b)
    end;
  cbn [andb].

Section SplitCopy.

Variable rb : ring.
Hypothesis Hinv : ring_inv rb.

Lemma region_facts (i : Z) :
  0 < esize rb
  /\ 0 < size rb * esize rb
  /\ size rb * esize rb <= nbytes (buffer rb)
  /\ 0 <= (i mod size rb) * esize rb
  /\ (i mod size rb) * esize rb + esize rb <= size rb * esize rb.
Proof.
  pose proof (inv_esize rb Hinv). pose proof (size_pos rb Hinv).
  pose proof (inv_region rb Hinv). pose proof (slot_range rb Hinv i).
  repeat split; try assumption; nia.
Qed.

(** The three numbers [ring_span] hands to the copies, named. *)
Ltac name_span n i Hn :=
  let Hspan := fresh "Hspan" in
  pose proof (ring_span_eq rb Hinv n i Hn) as Hspan; cbv zeta in Hspan;
  destruct (region_facts i) as (He & HS & Hreg & Hoff0 & Hoff1);
  assert (HN : 0 <= n * esize rb <= size rb * esize rb) by nia;
  set (off := (i mod size rb) * esize rb) in *;
  set (sz := size rb * esize rb) in *;
  set (l := Z.min (n * esize rb) (sz - off)) in *.

(** [__ring_put] of [n <= size] elements at logical index [i]: byte [p] of
    the region is overwritten exactly when it lies less than [n * esize]
    bytes, cyclically, after the slot of [i]. *)
Lemma __ring_put_bytes (src : list byte) (n i : Z) :
  0 <= n <= size rb -> n * esize rb <= nbytes src ->
  exists b,
    __ring_put rb src n i = Some (set_buffer rb b)
    /\ nbytes b = nbytes (buffer rb)
    /\ forall p, 0 <= p ->
         let d := (p - (i mod size rb) * esize rb) mod (size rb * esize rb) in
         byte_at b p =
           if (p <? size rb * esize rb) && (d <? n * esize rb)
           then byte_at src d
           else byte_at (buffer rb) p.
Proof.
  intros Hn Hsrc. name_span n i Hn.
  unfold __ring_put. rewrite Hspan. cbv beta iota zeta.
  destruct (memcpy_defined (buffer rb) off src 0 l) as [b1 E1]; try lia.
  pose proof (memcpy_nbytes _ _ _ _ _ _ E1) as L1.
  destruct (memcpy_defined b1 0 src l (n * esize rb - l)) as [b2 E2];
    try lia.
  pose proof (memcpy_nbytes _ _ _ _ _ _ E2) as L2.
  rewrite E1. cbn [bind]. rewrite E2. cbn [bind].
  exists b2. split; [reflexivity|]. split; [congruence|].
  intros p Hp.
  rewrite (memcpy_byte_at _ _ _ _ _ _ _ E2 Hp).
  rewrite (memcpy_byte_at _ _ _ _ _ _ _ E1 Hp).
  destruct (Z.ltb_spec p sz) as [HpS|HpS]; cbn [andb].
  - rewrite (mod_once_down (p - off) sz) by lia.
    destruct (Z.ltb_spec (p - off) 0);
      cases_cmp; try lia; try reflexivity; f_equal; lia.
  - cases_cmp; try lia; reflexivity.
Qed.

(** [__ring_get] of [n <= size] elements at logical index [i]: byte [k]
    of the destination, for [k < n * esize], is the byte [k] bytes,
    cyclically, after the slot of [i]; the rest is untouched. *)
Lemma __ring_get_bytes (dst : list byte) (n i : Z) :
  0 <= n <= size rb -> n * esize rb <= nbytes dst ->
  exists d,
    __ring_get rb dst n i = Some d
    /\ nbytes d = nbytes dst
    /\ forall k, 0 <= k ->
         byte_at d k =
           if k <? n * esize rb
           then byte_at (buffer rb)
                  (((i mod size rb) * esize rb + k) mod (size rb * esize rb))
           else byte_at dst k.
Proof.
  intros Hn Hdst. name_span n i Hn.
  unfold __ring_get. rewrite Hspan. cbv beta iota zeta.
  destruct (memcpy_defined dst 0 (buffer rb) off l) as [d1 E1]; try lia.
  pose proof (memcpy_nbytes _ _ _ _ _ _ E1) as L1.
  destruct (memcpy_defined d1 l (buffer rb) 0 (n * esize rb - l))
    as [d2 E2]; try lia.
  pose proof (memcpy_nbytes _ _ _ _ _ _ E2) as L2.
  rewrite E1. cbn [bind]. rewrite E2.
  exists d2. split; [reflexivity|]. split; [congruence|].
  intros k Hk.
  rewrite (memcpy_byte_at _ _ _ _ _ _ _ E2 Hk).
  rewrite (memcpy_byte_at _ _ _ _ _ _ _ E1 Hk).
  destruct (Z.ltb_spec k (n * esize rb)) as [HkN|HkN].
  - rewrite (mod_once_up (off + k) sz) by lia.
    destruct (Z.ltb_spec (off + k) sz); cases_cmp; try lia; f_equal; lia.
  - cases_cmp; try lia; reflexivity.
Qed.

(** A defined [__ring_put] / [__ring_get] was handed an area that holds
    the [n] elements. *)
Lemma __ring_put_area (src : list byte) (n i : Z) r :
  0 <= n <= size rb ->
  __ring_put rb src n i = Some r -> n * esize rb <= nbytes src.
Proof.
  intros Hn E. name_span n i Hn.
  unfold __ring_put in E. rewrite Hspan in E. cbv beta iota zeta in E.
  destruct (memcpy _ _ src 0 _) as [b1|] eqn:E1; [|discriminate].
  cbn [bind] in E.
  destruct (memcpy b1 0 src _ _) as [b2|] eqn:E2; [|discriminate].
  apply memcpy_bounds in E2. lia.
Qed.

Lemma __ring_get_area (dst : list byte) (n i : Z) r :
  0 <= n <= size rb ->
  __ring_get rb dst n i = Some r -> n * esize rb <= nbytes dst.
Proof.
  intros Hn E. name_span n i Hn.
  unfold __ring_get in E. rewrite Hspan in E. cbv beta iota zeta in E.
  destruct (memcpy dst 0 _ _ _) as [d1|] eqn:E1; [|discriminate].
  cbn [bind] in E.
  pose proof (memcpy_nbytes _ _ _ _ _ _ E1) as L1.
  apply memcpy_bounds in E. lia.
Qed.

End SplitCopy.

(** ** The split copy, element by element *)

Lemma nth_error_indices (from n : Z) (j : nat) :
  nth_error (indices from n) j
  = if (j <? Z.to_nat n)%nat then Some (wrap32 (from + Z.of_nat j)) else None.
Proof.
  unfold indices. rewrite nth_error_map, nth_error_seq.
  destruct (j <? Z.to_nat n)%nat; reflexivity.
Qed.

Lemma length_indices (from n : Z) : length (indices from n) = Z.to_nat n.
Proof. unfold indices. rewrite length_map, length_seq. reflexivity. Qed.

Lemma in_indices (from n i : Z) :
  In i (indices from n) <-> exists j, 0 <= j < n /\ i = wrap32 (from + j).
Proof.
  unfold indices. rewrite in_map_iff. split.
  - intros (j & <- & Hj). apply in_seq in Hj. exists (Z.of_nat j). lia.
  - intros (j & Hj & ->). exists (Z.to_nat j). split.
    + rewrite Z2Nat.id by lia. reflexivity.
    + apply in_seq. lia.
Qed.

(** Bytes of a concatenation of areas of [e] bytes each. *)
Lemma byte_at_concat (e : Z) (ls : list (list byte)) (k : Z) :
  0 < e -> Forall (fun x => nbytes x = e) ls -> 0 <= k ->
  byte_at (concat ls) k
  = match nth_error ls (Z.to_nat (k / e)) with
    | Some x => byte_at x (k mod e)
    | None => None
    end.
Proof.
  intros He Hls. revert k. induction Hls as [|x ls Hx Hls IH]; intros k Hk.
  - unfold byte_at. cbn. rewrite !nth_error_nil. reflexivity.
  - cbn [concat]. unfold byte_at at 1. rewrite nth_error_app.
    unfold nbytes in Hx.
    destruct (Nat.ltb_spec (Z.to_nat k) (length x)) as [Hlt|Hge].
    + rewrite Z.div_small, Z.mod_small by lia. reflexivity.
    + assert (Hk' : 0 <= k - e) by lia.
      specialize (IH (k - e) Hk').
      assert (Hdiv : k / e = (k - e) / e + 1).
      { rewrite <- Z.div_add by lia. f_equal. lia. }
      assert (Hmod : k mod e = (k - e) mod e).
      { rewrite <- (Z.mod_add (k - e) 1 e) by lia. f_equal. lia. }
      rewrite Hdiv, Hmod.
      replace (Z.to_nat ((k - e) / e + 1))
        with (Datatypes.S (Z.to_nat ((k - e) / e))).
      * cbn [nth_error]. rewrite <- IH. unfold byte_at. f_equal. lia.
      * pose proof (Z.div_pos (k - e) e Hk' He). lia.
Qed.

Lemma nbytes_concat (e : Z) (ls : list (list byte)) :
  Forall (fun x => nbytes x = e) ls ->
  nbytes (concat ls) = Z.of_nat (length ls) * e.
Proof.
  induction 1 as [|x ls Hx Hls IH]; [reflexivity|].
  cbn [concat length]. unfold nbytes in *. rewrite length_app. lia.
Qed.

Section Elements.

Variable rb : ring.
Hypothesis Hinv : ring_inv rb.

Lemma slot_eq (i : Z) : slot rb i = (i mod size rb) * esize rb.
Proof. unfold slot. rewrite land_mask by assumption. reflexivity. Qed.

Lemma nbytes_element (i : Z) : nbytes (element rb i) = esize rb.
Proof.
  destruct (region_facts rb Hinv i) as (He & HS & Hreg & Hoff0 & Hoff1).
  unfold element. rewrite slot_eq. apply nbytes_bytes_at; lia.
Qed.

Lemma byte_at_element (i k : Z) :
  0 <= k ->
  byte_at (element rb i) k
  = if k <? esize rb
    then byte_at (buffer rb) ((i mod size rb) * esize rb + k)
    else None.
Proof.
  intros Hk.
  destruct (region_facts rb Hinv i) as (He & HS & Hreg & Hoff0 & Hoff1).
  unfold element. rewrite slot_eq. apply byte_at_bytes_at; lia.
Qed.

(** After [__ring_put] of [n] elements at logical index [h], the element
    of logical index [i] is the [d]-th element of the source if [i] lies
    [d < n] slots, cyclically, after [h], and is what it was otherwise. *)
Lemma __ring_put_element (src : list byte) (n h : Z) rb' (i : Z) :
  0 <= n <= size rb ->
  __ring_put rb src n h = Some rb' ->
  element rb' i
  = if (i - h) mod size rb <? n
    then bytes_at src ((i - h) mod size rb * esize rb) (esize rb)
    else element rb i.
Proof.
  intros Hn E.
  pose proof (__ring_put_area rb Hinv src n h rb' Hn E) as Hsrc.
  destruct (__ring_put_bytes rb Hinv src n h Hn Hsrc) as (b & E' & Lb & Hb).
  rewrite E' in E. injection E as <-.
  destruct (region_facts rb Hinv i) as (He & HS & Hreg & Hoff0 & Hoff1).
  pose proof (size_pos rb Hinv) as Hsz.
  pose proof (slot_range rb Hinv i) as Hq.
  pose proof (slot_range rb Hinv (i - h)) as Hd.
  assert (Hbyte : forall k, 0 <= k < esize rb ->
    byte_at b ((i mod size rb) * esize rb + k)
    = if (i - h) mod size rb <? n
      then byte_at src ((i - h) mod size rb * esize rb + k)
      else byte_at (buffer rb) ((i mod size rb) * esize rb + k)).
  { intros k Hk. rewrite Hb by lia. cbv zeta.
    replace (i mod size rb * esize rb + k - h mod size rb * esize rb)
      with ((i mod size rb - h mod size rb) * esize rb + k) by ring.
    rewrite scaled_mod, <- Zminus_mod by lia.
    destruct (Z.ltb_spec (i mod size rb * esize rb + k) (size rb * esize rb));
      [|nia].
    cbn [andb].
    pose proof (scaled_lt ((i - h) mod size rb) n (esize rb) k Hk) as Hs.
    destruct (Z.ltb_spec ((i - h) mod size rb) n) as [Hlt|Hge];
      destruct (Z.ltb_spec ((i - h) mod size rb * esize rb + k) (n * esize rb))
      as [Hlt'|Hge']; try reflexivity; lia. }
  apply byte_at_ext. intros k Hk.
  unfold element at 1. cbn [buffer esize set_buffer].
  change (slot (set_buffer rb b) i) with (slot rb i). rewrite slot_eq.
  rewrite byte_at_bytes_at by lia.
  destruct (Z.ltb_spec k (esize rb)) as [Hlt|Hge].
  - rewrite Hbyte by lia.
    destruct (Z.ltb_spec ((i - h) mod size rb) n).
    + rewrite byte_at_bytes_at by nia.
      destruct (Z.ltb_spec k (esize rb)); [reflexivity|lia].
    + rewrite byte_at_element by lia.
      destruct (Z.ltb_spec k (esize rb)); [reflexivity|lia].
  - destruct (Z.ltb_spec ((i - h) mod size rb) n).
    + rewrite byte_at_bytes_at by nia.
      destruct (Z.ltb_spec k (esize rb)); [lia|reflexivity].
    + rewrite byte_at_element by lia.
      destruct (Z.ltb_spec k (esize rb)); [lia|reflexivity].
Qed.

End Elements.

(** ** Runs of logical indices *)

Lemma wrap32_add_l (a b : Z) : wrap32 (wrap32 a + b) = wrap32 (a + b).
Proof. unfold wrap32. apply Zplus_mod_idemp_l. Qed.

Lemma wrap32_add_r (a b : Z) : wrap32 (a + wrap32 b) = wrap32 (a + b).
Proof. unfold wrap32. apply Zplus_mod_idemp_r. Qed.

Lemma wrap32_sub_l (a b : Z) : wrap32 (wrap32 a - b) = wrap32 (a - b).
Proof. unfold wrap32. apply Zminus_mod_idemp_l. Qed.

Lemma wrap32_sub_r (a b : Z) : wrap32 (a - wrap32 b) = wrap32 (a - b).
Proof. unfold wrap32. apply Zminus_mod_idemp_r. Qed.

Lemma indices_app (t a b : Z) :
  0 <= a -> 0 <= b ->
  indices t (a + b) = indices t a ++ indices (wrap32 (t + a)) b.
Proof.
  intros Ha Hb. apply nth_error_ext. intros j.
  rewrite nth_error_app, !nth_error_indices, length_indices.
  destruct (Nat.ltb_spec j (Z.to_nat (a + b))),
    (Nat.ltb_spec j (Z.to_nat a)),
    (Nat.ltb_spec (j - Z.to_nat a) (Z.to_nat b)); try lia; try reflexivity.
  rewrite wrap32_add_l. do 2 f_equal. lia.
Qed.

Lemma firstn_indices (t a b : Z) :
  0 <= a -> 0 <= b ->
  firstn (Z.to_nat a) (indices t (a + b)) = indices t a.
Proof.
  intros Ha Hb. rewrite indices_app by assumption.
  rewrite firstn_app, length_indices, Nat.sub_diag, firstn_O, app_nil_r.
  apply firstn_all2. rewrite length_indices. lia.
Qed.

Lemma skipn_indices (t a b : Z) :
  0 <= a -> 0 <= b ->
  skipn (Z.to_nat a) (indices t (a + b)) = indices (wrap32 (t + a)) b.
Proof.
  intros Ha Hb. rewrite indices_app by assumption.
  rewrite skipn_app, length_indices, Nat.sub_diag, skipn_O.
  rewrite skipn_all2 by (rewrite length_indices; lia). reflexivity.
Qed.

Section Elements_read.

Variable rb : ring.
Hypothesis Hinv : ring_inv rb.

Lemma elements_sized (l : list Z) :
  Forall (fun x => nbytes x = esize rb) (map (element rb) l).
Proof.
  apply Forall_forall. intros x Hx. apply in_map_iff in Hx.
  destruct Hx as (i & <- & _). apply nbytes_element. exact Hinv.
Qed.

(** [__ring_get] of [n] elements at logical index [t] lays the elements of
    the logical indices [t, t + 1, ..., t + n - 1] out at the start of the
    destination, in that order, and leaves the rest of it alone. *)
Lemma __ring_get_elements (dst : list byte) (n t : Z) :
  0 <= n <= size rb -> n * esize rb <= nbytes dst ->
  __ring_get rb dst n t
  = Some (concat (map (element rb) (indices t n))
          ++ skipn (Z.to_nat (n * esize rb)) dst).
Proof.
  intros Hn Hdst.
  destruct (__ring_get_bytes rb Hinv dst n t Hn Hdst) as (d & E & Ld & Hd).
  rewrite E. f_equal. apply byte_at_ext. intros k Hk. rewrite Hd by lia.
  destruct (region_facts rb Hinv t) as (He & HS & Hreg & Hoff0 & Hoff1).
  pose proof (size_pos rb Hinv) as Hsz.
  pose proof (nbytes_concat (esize rb) _ (elements_sized (indices t n))) as Lc.
  rewrite length_map, length_indices in Lc. unfold nbytes in Lc.
  unfold byte_at at 3. rewrite nth_error_app.
  destruct (Z.ltb_spec k (n * esize rb)) as [Hlt|Hge];
    destruct (Nat.ltb_spec (Z.to_nat k)
                (length (concat (map (element rb) (indices t n)))));
    try lia.
  - fold (byte_at (concat (map (element rb) (indices t n))) k).
    rewrite (byte_at_concat (esize rb)) by (try apply elements_sized; lia).
    assert (Hq : 0 <= k / esize rb < n).
    { split; [apply Z.div_pos; lia|]. apply Z.div_lt_upper_bound; lia. }
    pose proof (Z.mod_pos_bound k (esize rb) He) as Hr.
    rewrite nth_error_map, nth_error_indices.
    destruct (Nat.ltb_spec (Z.to_nat (k / esize rb)) (Z.to_nat n)); [|lia].
    cbn [option_map]. rewrite byte_at_element by (assumption || lia).
    destruct (Z.ltb_spec (k mod esize rb) (esize rb)); [|lia].
    rewrite Z2Nat.id by lia. rewrite wrap32_mod_size by assumption.
    f_equal.
    rewrite (Z.div_mod k (esize rb)) at 1 by lia.
    replace (t mod size rb * esize rb
             + (esize rb * (k / esize rb) + k mod esize rb))
      with ((t mod size rb + k / esize rb) * esize rb + k mod esize rb)
      by ring.
    rewrite scaled_mod by lia. rewrite Z.add_mod_idemp_l by lia. reflexivity.
  - rewrite nth_error_skipn. unfold byte_at. f_equal. lia.
Qed.

End Elements_read.

(** ** ring_put and ring_get *)

Section Calls.

Variable rb : ring.
Hypothesis Hinv : ring_inv rb.

Lemma ring_used_put (n : Z) :
  0 <= n <= size rb - ring_used rb ->
  wrap32 (wrap32 (head rb + n) - tail rb) = ring_used rb + n.
Proof.
  intros Hn. pose proof (ring_used_range rb Hinv).
  pose proof (size_lt_32 rb Hinv).
  rewrite wrap32_sub_l.
  replace (head rb + n - tail rb) with (head rb - tail rb + n) by ring.
  rewrite <- wrap32_add_l. fold (ring_used rb). apply wrap32_small. lia.
Qed.

Lemma ring_used_get (n : Z) :
  0 <= n <= ring_used rb ->
  wrap32 (head rb - wrap32 (tail rb + n)) = ring_used rb - n.
Proof.
  intros Hn. pose proof (ring_used_range rb Hinv).
  pose proof (size_lt_32 rb Hinv).
  rewrite wrap32_sub_r.
  replace (head rb - (tail rb + n)) with (head rb - tail rb - n) by ring.
  rewrite <- wrap32_sub_l. fold (ring_used rb). apply wrap32_small. lia.
Qed.

Lemma ring_inv_put (b : list byte) (n : Z) :
  nbytes b = nbytes (buffer rb) -> 0 <= n <= size rb - ring_used rb ->
  ring_inv (set_head (set_buffer rb b) (wrap32 (head rb + n))).
Proof.
  intros Lb Hn. destruct Hinv.
  constructor; cbn [set_head set_buffer buffer size mask esize head tail];
    try assumption; try apply wrap32_range; try congruence.
  rewrite ring_used_put by assumption. lia.
Qed.

Lemma ring_inv_get (n : Z) :
  0 <= n <= ring_used rb -> ring_inv (set_tail rb (wrap32 (tail rb + n))).
Proof.
  intros Hn. pose proof (ring_used_range rb Hinv). destruct Hinv.
  constructor; cbn [set_tail buffer size mask esize head tail];
    try assumption; try apply wrap32_range.
  rewrite ring_used_get by assumption. lia.
Qed.

(** The count [ring_put] settles on. *)
Lemma ring_put_count (len : Z) :
  min len (wrap32 (ring_space rb)) = Z.min len (ring_space rb).
Proof.
  rewrite min_Zmin, wrap32_small; [reflexivity|].
  unfold ring_space. apply wrap32_range.
Qed.

(** The count [ring_get] settles on. *)
Lemma ring_get_count (len : Z) :
  min (wrap32 (ring_used rb)) len = Z.min len (ring_used rb).
Proof.
  rewrite min_Zmin, wrap32_small, Z.min_comm; [reflexivity|].
  unfold ring_used. apply wrap32_range.
Qed.

Lemma put_count_range (len : Z) :
  0 <= len ->
  0 <= Z.min len (ring_space rb) <= size rb - ring_used rb
  /\ Z.min len (ring_space rb) <= size rb.
Proof.
  intros Hlen. rewrite ring_space_eq by assumption.
  pose proof (ring_used_range rb Hinv). lia.
Qed.

Lemma get_count_range (len : Z) :
  0 <= len ->
  0 <= Z.min len (ring_used rb) <= ring_used rb
  /\ Z.min len (ring_used rb) <= size rb.
Proof. intros Hlen. pose proof (ring_used_range rb Hinv). lia. Qed.

(** [ring_put] on an area that holds the elements it will copy. *)
Lemma ring_put_defined (src : list byte) (len : Z) :
  0 <= len ->
  Z.min len (ring_space rb) * esize rb <= nbytes src ->
  exists b,
    __ring_put rb src (Z.min len (ring_space rb)) (head rb)
      = Some (set_buffer rb b)
    /\ nbytes b = nbytes (buffer rb)
    /\ ring_put rb src len
       = Some (set_head (set_buffer rb b)
                 (wrap32 (head rb + Z.min len (ring_space rb))),
               Z.min len (ring_space rb)).
Proof.
  intros Hlen Hsrc. destruct (put_count_range len Hlen) as [Hn Hn'].
  assert (Hn0 : 0 <= Z.min len (ring_space rb) <= size rb) by lia.
  destruct (__ring_put_bytes rb Hinv src _ (head rb) Hn0 Hsrc)
    as (b & E & Lb & _).
  exists b. split; [assumption|]. split; [assumption|].
  unfold ring_put. rewrite ring_put_count, E. reflexivity.
Qed.

(** A defined [ring_put] was handed such an area. *)
Lemma ring_put_area (src : list byte) (len : Z) r :
  0 <= len -> ring_put rb src len = Some r ->
  Z.min len (ring_space rb) * esize rb <= nbytes src.
Proof.
  intros Hlen E. destruct (put_count_range len Hlen) as [Hn Hn'].
  unfold ring_put in E. rewrite ring_put_count in E.
  destruct (__ring_put rb src _ (head rb)) as [r'|] eqn:E'; [|discriminate].
  apply (__ring_put_area rb Hinv src _ (head rb) r'); [lia|exact E'].
Qed.

(** [ring_get] into an area that holds the elements it will copy. *)
Lemma ring_get_defined (dst : list byte) (len : Z) :
  0 <= len ->
  Z.min len (ring_used rb) * esize rb <= nbytes dst ->
  ring_get rb dst len
  = Some (set_tail rb (wrap32 (tail rb + Z.min len (ring_used rb))),
          concat (map (element rb)
                    (indices (tail rb) (Z.min len (ring_used rb))))
          ++ skipn (Z.to_nat (Z.min len (ring_used rb) * esize rb)) dst,
          Z.min len (ring_used rb)).
Proof.
  intros Hlen Hdst. destruct (get_count_range len Hlen) as [Hn Hn'].
  unfold ring_get. rewrite ring_get_count.
  rewrite (__ring_get_elements rb Hinv) by (assumption || lia).
  reflexivity.
Qed.

Lemma ring_get_area (dst : list byte) (len : Z) r :
  0 <= len -> ring_get rb dst len = Some r ->
  Z.min len (ring_used rb) * esize rb <= nbytes dst.
Proof.
  intros Hlen E. destruct (get_count_range len Hlen) as [Hn Hn'].
  unfold ring_get in E. rewrite ring_get_count in E.
  destruct (__ring_get rb dst _ (tail rb)) as [r'|] eqn:E'; [|discriminate].
  apply (__ring_get_area rb Hinv dst _ (tail rb) r'); [lia|exact E'].
Qed.

End Calls.

(** ** The buffer refines the queue *)

Section Refinement.

Variable rb : ring.
Hypothesis Hinv : ring_inv rb.

Lemma length_contents : Z.of_nat (length (contents rb)) = ring_used rb.
Proof.
  unfold contents. rewrite length_map, length_indices.
  pose proof (ring_used_range rb Hinv). lia.
Qed.

Lemma slot_sub (x y : Z) : (wrap32 x - y) mod size rb = (x - y) mod size rb.
Proof.
  rewrite Zminus_mod, wrap32_mod_size, <- Zminus_mod by assumption.
  reflexivity.
Qed.

Lemma used_mod (x : Z) :
  (x - (head rb - tail rb)) mod size rb = (x - ring_used rb) mod size rb.
Proof.
  rewrite (Zminus_mod x (ring_used rb)). unfold ring_used.
  rewrite wrap32_mod_size, <- Zminus_mod by assumption. reflexivity.
Qed.

Lemma head_eq : wrap32 (tail rb + ring_used rb) = head rb.
Proof.
  unfold ring_used. rewrite wrap32_add_r.
  replace (tail rb + (head rb - tail rb)) with (head rb) by ring.
  apply wrap32_small. exact (inv_head rb Hinv).
Qed.

(** [ring_put] appends the elements it copies to the stored ones. *)
Lemma contents_put (src : list byte) (n : Z) rb1 :
  0 <= n <= size rb - ring_used rb ->
  __ring_put rb src n (head rb) = Some rb1 ->
  contents (set_head rb1 (wrap32 (head rb + n)))
  = contents rb ++ elements (esize rb) n src.
Proof.
  intros Hn E. pose proof (ring_used_range rb Hinv) as Hu.
  pose proof (size_pos rb Hinv) as Hsz.
  assert (Hn' : 0 <= n <= size rb) by lia.
  pose proof (__ring_put_area rb Hinv src n (head rb) rb1 Hn' E) as Hsrc.
  destruct (__ring_put_bytes rb Hinv src n (head rb) Hn' Hsrc)
    as (b & E' & Lb & _).
  assert (rb1 = set_buffer rb b) by congruence. subst rb1. clear E'.
  unfold contents.
  change (tail (set_head (set_buffer rb b) (wrap32 (head rb + n))))
    with (tail rb).
  change (ring_used (set_head (set_buffer rb b) (wrap32 (head rb + n))))
    with (wrap32 (wrap32 (head rb + n) - tail rb)).
  rewrite ring_used_put, indices_app, map_app by (assumption || lia).
  f_equal.
  - apply map_ext_in. intros i Hi. apply in_indices in Hi.
    destruct Hi as (j & Hj & ->).
    change (element (set_head (set_buffer rb b) (wrap32 (head rb + n))))
      with (element (set_buffer rb b)).
    rewrite (__ring_put_element rb Hinv src n (head rb) _ _ Hn' E).
    rewrite slot_sub.
    replace (tail rb + j - head rb) with (j - (head rb - tail rb)) by ring.
    rewrite used_mod, mod_once_down by lia.
    destruct (Z.ltb_spec (j - ring_used rb) 0); [|lia].
    destruct (Z.ltb_spec (j - ring_used rb + size rb) n); [lia|reflexivity].
  - rewrite head_eq. unfold indices, elements. rewrite map_map.
    apply map_ext_in. intros j Hj. apply in_seq in Hj.
    change (element (set_head (set_buffer rb b) (wrap32 (head rb + n))))
      with (element (set_buffer rb b)).
    rewrite (__ring_put_element rb Hinv src n (head rb) _ _ Hn' E).
    rewrite slot_sub.
    replace (head rb + Z.of_nat j - head rb) with (Z.of_nat j) by ring.
    rewrite Z.mod_small by lia.
    destruct (Z.ltb_spec (Z.of_nat j) n); [reflexivity|lia].
Qed.

(** [ring_get] copies the oldest stored elements and drops them. *)
Lemma firstn_contents (n : Z) :
  0 <= n <= ring_used rb ->
  firstn (Z.to_nat n) (contents rb) = map (element rb) (indices (tail rb) n).
Proof.
  intros Hn. unfold contents. rewrite firstn_map.
  replace (ring_used rb) with (n + (ring_used rb - n)) by ring.
  rewrite firstn_indices by lia. reflexivity.
Qed.

Lemma contents_get (n : Z) :
  0 <= n <= ring_used rb ->
  contents (set_tail rb (wrap32 (tail rb + n)))
  = skipn (Z.to_nat n) (contents rb).
Proof.
  intros Hn.
  assert (Hskip : skipn (Z.to_nat n) (indices (tail rb) (ring_used rb))
                  = indices (wrap32 (tail rb + n)) (ring_used rb - n)).
  { replace (ring_used rb) with (n + (ring_used rb - n)) at 1 by ring.
    apply skipn_indices; lia. }
  unfold contents at 2. rewrite skipn_map, Hskip.
  unfold contents.
  change (ring_used (set_tail rb (wrap32 (tail rb + n))))
    with (wrap32 (head rb - wrap32 (tail rb + n))).
  rewrite ring_used_get by assumption. reflexivity.
Qed.

(** One [ring_put] is one [Fifo.put]. *)
Lemma put_refines (src : list byte) (len : Z) :
  0 <= len ->
  Z.min len (ring_space rb) * esize rb <= nbytes src ->
  exists rb',
    ring_put rb src len = Some (rb', snd (Fifo.put (abs rb) src len))
    /\ abs rb' = fst (Fifo.put (abs rb) src len)
    /\ ring_inv rb'.
Proof.
  intros Hlen Hsrc. destruct (put_count_range rb Hinv len Hlen) as [Hn Hn'].
  destruct (ring_put_defined rb Hinv src len Hlen Hsrc) as (b & E & Lb & Ep).
  assert (Hact : Z.min len (Fifo.space (abs rb)) = Z.min len (ring_space rb)).
  { unfold Fifo.space, Fifo.used, abs. cbn [Fifo.capacity Fifo.queue].
    rewrite length_contents, ring_space_eq by assumption. reflexivity. }
  eexists. split; [|split].
  - rewrite Ep. unfold Fifo.put. cbn [snd]. rewrite Hact. reflexivity.
  - unfold Fifo.put. cbn [fst]. rewrite Hact. unfold abs at 1.
    cbn [size esize set_head set_buffer].
    rewrite (contents_put src _ _ Hn E). reflexivity.
  - apply ring_inv_put; assumption.
Qed.

(** One [ring_get] is one [Fifo.get]. *)
Lemma get_refines (dst : list byte) (len : Z) :
  0 <= len ->
  Z.min len (ring_used rb) * esize rb <= nbytes dst ->
  exists rb',
    ring_get rb dst len
    = Some (rb', snd (fst (Fifo.get (abs rb) dst len)),
            snd (Fifo.get (abs rb) dst len))
    /\ abs rb' = fst (fst (Fifo.get (abs rb) dst len))
    /\ ring_inv rb'.
Proof.
  intros Hlen Hdst. destruct (get_count_range rb Hinv len Hlen) as [Hn Hn'].
  assert (Hact : Z.min len (Fifo.used (abs rb)) = Z.min len (ring_used rb)).
  { unfold Fifo.used, abs. cbn [Fifo.queue].
    rewrite length_contents. reflexivity. }
  eexists. split; [|split].
  - rewrite (ring_get_defined rb Hinv dst len Hlen Hdst).
    unfold Fifo.get. cbn [fst snd]. rewrite Hact.
    cbn [abs Fifo.queue Fifo.element_size].
    rewrite firstn_contents by assumption. reflexivity.
  - unfold Fifo.get. cbn [fst]. rewrite Hact. unfold abs at 1.
    cbn [size esize set_tail Fifo.queue Fifo.capacity Fifo.element_size abs].
    rewrite contents_get by assumption. reflexivity.
  - apply ring_inv_get; assumption.
Qed.

End Refinement.

(** ** Calls that copy nothing *)

Section Nothing.

Variable rb : ring.
Hypothesis Hinv : ring_inv rb.

Lemma set_head_same : set_head rb (wrap32 (head rb + 0)) = rb.
Proof.
  rewrite Z.add_0_r, wrap32_small by exact (inv_head rb Hinv).
  destruct rb. reflexivity.
Qed.

Lemma set_tail_same : set_tail rb (wrap32 (tail rb + 0)) = rb.
Proof.
  rewrite Z.add_0_r, wrap32_small by exact (inv_tail rb Hinv).
  destruct rb. reflexivity.
Qed.

Lemma __ring_put_zero (src : list byte) (i : Z) :
  __ring_put rb src 0 i = Some rb.
Proof.
  pose proof (size_pos rb Hinv) as Hsz.
  assert (Hsrc : 0 * esize rb <= nbytes src) by (unfold nbytes; lia).
  destruct (__ring_put_bytes rb Hinv src 0 i ltac:(lia) Hsrc)
    as (b & E & Lb & Hb).
  rewrite E. f_equal.
  assert (Eb : b = buffer rb).
  { apply byte_at_ext. intros p Hp. rewrite (Hb p Hp). cbv zeta.
    destruct (region_facts rb Hinv i) as (_ & HS & _).
    pose proof (Z.mod_pos_bound (p - i mod size rb * esize rb) _ HS).
    cases_cmp; try lia; reflexivity. }
  rewrite Eb. destruct rb. reflexivity.
Qed.

Lemma ring_put_nothing (src : list byte) (len : Z) :
  Z.min len (ring_space rb) = 0 -> ring_put rb src len = Some (rb, 0).
Proof.
  intros Hz. unfold ring_put.
  rewrite ring_put_count, Hz, __ring_put_zero. cbn [bind].
  rewrite set_head_same. reflexivity.
Qed.

Lemma ring_get_nothing (dst : list byte) (len : Z) :
  0 <= len -> Z.min len (ring_used rb) = 0 ->
  ring_get rb dst len = Some (rb, dst, 0).
Proof.
  intros Hlen Hz.
  rewrite (ring_get_defined rb Hinv dst len Hlen)
    by (rewrite Hz; unfold nbytes; lia).
  rewrite Hz, set_tail_same. reflexivity.
Qed.

End Nothing.

(** ** Single calls *)

(** Proves [ring_inv] of a closed state whose size is [2 ^ k]. *)
Ltac closed_inv k :=
  constructor;
  [ exists k; split; [lia|reflexivity]
  | vm_compute; repeat split; (reflexivity || discriminate) .. ].

(** C1: on an initialised buffer, [ring_put] returns
    [min (len, ring_space rb)], the free space at the time of the call, and
    advances [head] by exactly that count (modulo 2^32); that count never
    exceeds the free space, so the stored count grows by it and stays within
    the capacity. *)
Theorem ring_put_returns_min (rb : ring) (src : list byte) (len : Z) :
  ring_inv rb -> 0 <= len < 2 ^ 32 ->
  Z.min len (ring_space rb) * esize rb <= nbytes src ->
  exists rb',
    ring_put rb src len = Some (rb', Z.min len (ring_space rb))
    /\ head rb' = wrap32 (head rb + Z.min len (ring_space rb))
    /\ 0 <= Z.min len (ring_space rb) <= ring_space rb
    /\ ring_used rb' = ring_used rb + Z.min len (ring_space rb)
    /\ ring_used rb' <= size rb'.
Proof.
  intros Hinv Hlen Hsrc.
  destruct (put_count_range rb Hinv len ltac:(lia)) as [Hn Hn'].
  destruct (ring_put_defined rb Hinv src len ltac:(lia) Hsrc)
    as (b & _ & Lb & E).
  eexists. split; [exact E|]. split; [reflexivity|].
  rewrite ring_space_eq in * by assumption.
  split; [lia|].
  set (n := Z.min len (size rb - ring_used rb)) in *.
  assert (Hu : ring_used (set_head (set_buffer rb b) (wrap32 (head rb + n)))
               = ring_used rb + n)
    by (apply (ring_used_put rb Hinv n); assumption).
  rewrite Hu. cbn [set_head set_buffer size]. lia.
Qed.

Lemma ring_put_returns_min_witness :
  exists rb',
    ring_put (sample 3 1) [x4a; x4b; x5a; x5b; x6a; x6b] 3
    = Some (rb', Z.min 3 (ring_space (sample 3 1)))
    /\ head rb' = wrap32 (head (sample 3 1) + Z.min 3 (ring_space (sample 3 1)))
    /\ 0 <= Z.min 3 (ring_space (sample 3 1)) <= ring_space (sample 3 1)
    /\ ring_used rb'
       = ring_used (sample 3 1) + Z.min 3 (ring_space (sample 3 1))
    /\ ring_used rb' <= size rb'.
Proof.
  apply (ring_put_returns_min (sample 3 1) [x4a; x4b; x5a; x5b; x6a; x6b] 3).
  - closed_inv 2.
  - lia.
  - vm_compute. discriminate.
Defined.

(** C2: on an initialised buffer, [ring_get] returns
    [min (len, ring_used rb)], the stored count at the time of the call, and
    advances [tail] by exactly that count (modulo 2^32); a read from an
    empty buffer returns 0 and a write to a full buffer returns 0, and
    neither changes anything. *)
Theorem ring_get_returns_min
  (rb : ring) (dst src : list byte) (len : Z) :
  ring_inv rb -> 0 <= len < 2 ^ 32 ->
  Z.min len (ring_used rb) * esize rb <= nbytes dst ->
  (exists rb' dst',
     ring_get rb dst len = Some (rb', dst', Z.min len (ring_used rb))
     /\ tail rb' = wrap32 (tail rb + Z.min len (ring_used rb))
     /\ 0 <= Z.min len (ring_used rb) <= ring_used rb
     /\ ring_used rb' = ring_used rb - Z.min len (ring_used rb))
  /\ (ring_used rb = 0 -> ring_get rb dst len = Some (rb, dst, 0))
  /\ (ring_space rb = 0 -> ring_put rb src len = Some (rb, 0)).
Proof.
  intros Hinv Hlen Hdst.
  destruct (get_count_range rb Hinv len ltac:(lia)) as [Hn Hn'].
  split; [|split].
  - eexists _, _. split.
    + apply (ring_get_defined rb Hinv dst len); [lia|assumption].
    + split; [reflexivity|]. split; [assumption|].
      apply (ring_used_get rb Hinv); assumption.
  - intros Hempty. apply ring_get_nothing; [assumption|lia|lia].
  - intros Hfull. apply ring_put_nothing; [assumption|lia].
Qed.

Lemma ring_get_returns_min_witness :
  (exists rb' dst',
     ring_get (sample 6 6) [xff; xff] 1
     = Some (rb', dst', Z.min 1 (ring_used (sample 6 6)))
     /\ tail rb' = wrap32 (tail (sample 6 6) + Z.min 1 (ring_used (sample 6 6)))
     /\ 0 <= Z.min 1 (ring_used (sample 6 6)) <= ring_used (sample 6 6)
     /\ ring_used rb'
        = ring_used (sample 6 6) - Z.min 1 (ring_used (sample 6 6)))
  /\ (ring_used (sample 6 6) = 0 ->
      ring_get (sample 6 6) [xff; xff] 1 = Some (sample 6 6, [xff; xff], 0))
  /\ (ring_space (sample 6 6) = 0 ->
      ring_put (sample 6 6) [x4a; x4b] 1 = Some (sample 6 6, 0)).
Proof.
  apply (ring_get_returns_min (sample 6 6) [xff; xff] [x4a; x4b] 1).
  - closed_inv 2.
  - lia.
  - vm_compute. discriminate.
Defined.

(** C9: on an initialised buffer, [ring_put] of 0 elements returns 0 and
    leaves the struct and every byte of the region as they were, and
    [ring_get] of 0 elements returns 0 and leaves the struct (with the
    region) and the destination as they were. *)
Theorem zero_count_changes_nothing (rb : ring) (src dst : list byte) :
  ring_inv rb ->
  ring_put rb src 0 = Some (rb, 0) /\ ring_get rb dst 0 = Some (rb, dst, 0).
Proof.
  intros Hinv. pose proof (ring_used_range rb Hinv).
  pose proof (ring_space_eq rb Hinv). split.
  - apply ring_put_nothing; [assumption|lia].
  - apply ring_get_nothing; [assumption|lia|lia].
Qed.

Lemma zero_count_changes_nothing_witness :
  ring_put (sample 5 2) [] 0 = Some (sample 5 2, 0)
  /\ ring_get (sample 5 2) [xff] 0 = Some (sample 5 2, [xff], 0).
Proof.
  apply (zero_count_changes_nothing (sample 5 2) [] [xff]). closed_inv 2.
Defined.

(** ** First in, first out *)

Lemma nth_error_elements (e n : Z) (a : list byte) (j : nat) :
  nth_error (elements e n a) j
  = if (j <? Z.to_nat n)%nat
    then Some (bytes_at a (Z.of_nat j * e) e)
    else None.
Proof.
  unfold elements. rewrite nth_error_map, nth_error_seq.
  destruct (j <? Z.to_nat n)%nat; reflexivity.
Qed.

Lemma length_elements (e n : Z) (a : list byte) :
  length (elements e n a) = Z.to_nat n.
Proof. unfold elements. rewrite length_map, length_seq. reflexivity. Qed.

Lemma elements_area_sized (e n : Z) (a : list byte) :
  0 < e -> n * e <= nbytes a ->
  Forall (fun x => nbytes x = e) (elements e n a).
Proof.
  intros He Ha. apply Forall_forall. intros x Hx.
  unfold elements in Hx. apply in_map_iff in Hx.
  destruct Hx as (j & <- & Hj). apply in_seq in Hj.
  apply nbytes_bytes_at; nia.
Qed.

(** The first [n] elements of an area, one after the other, are its first
    [n * e] bytes. *)
Lemma concat_elements (e n : Z) (a : list byte) :
  0 < e -> 0 <= n -> n * e <= nbytes a ->
  concat (elements e n a) = bytes_at a 0 (n * e).
Proof.
  intros He Hn Ha. apply byte_at_ext. intros k Hk.
  rewrite (byte_at_concat e) by (try apply elements_area_sized; assumption).
  rewrite nth_error_elements, byte_at_bytes_at by lia.
  pose proof (Z.div_pos k e Hk He) as Hq.
  pose proof (Z.mod_pos_bound k e He) as Hr.
  pose proof (Z.div_mod k e ltac:(lia)) as Hkq.
  destruct (Nat.ltb_spec (Z.to_nat (k / e)) (Z.to_nat n)) as [Hlt|Hge];
    destruct (Z.ltb_spec k (n * e)) as [Hlt'|Hge']; try nia.
  - rewrite byte_at_bytes_at by nia.
    destruct (Z.ltb_spec (k mod e) e); [|lia].
    f_equal. rewrite Z2Nat.id by lia. lia.
  - reflexivity.
Qed.

(** C3: on an initialised buffer that is empty, with the head and tail
    counters anywhere (so the run may start at any slot and wrap around the
    end of the region), for any [n] up to the capacity: [ring_put] of [n]
    elements returns [n], and the [ring_get] of [n] elements that follows
    returns [n], leaves the buffer empty, and has written the [n] elements
    of the source, byte for byte and in order, at the start of the
    destination (whose remaining bytes are untouched). *)
Theorem put_get_roundtrip (rb : ring) (src dst : list byte) (n : Z) :
  ring_inv rb -> ring_used rb = 0 -> 0 <= n <= size rb ->
  n * esize rb <= nbytes src -> n * esize rb <= nbytes dst ->
  exists rb1 rb2,
    ring_put rb src n = Some (rb1, n)
    /\ ring_get rb1 dst n
       = Some (rb2,
               bytes_at src 0 (n * esize rb)
               ++ skipn (Z.to_nat (n * esize rb)) dst,
               n)
    /\ ring_used rb2 = 0.
Proof.
  intros Hinv Hempty Hn Hsrc Hdst.
  pose proof (ring_space_eq rb Hinv) as Hspace.
  assert (Hmin : Z.min n (ring_space rb) = n) by lia.
  destruct (put_refines rb Hinv src n) as (rb1 & E1 & A1 & Hinv1);
    [lia|rewrite Hmin; assumption|].
  unfold Fifo.put in E1, A1. cbn [fst snd] in E1, A1.
  assert (Hact : Z.min n (Fifo.space (abs rb)) = n).
  { unfold Fifo.space, Fifo.used, abs. cbn [Fifo.capacity Fifo.queue].
    rewrite length_contents by assumption. lia. }
  rewrite Hact in E1, A1.
  assert (Hnil : contents rb = []).
  { apply length_zero_iff_nil.
    pose proof (length_contents rb Hinv). lia. }
  cbn [abs Fifo.queue Fifo.capacity Fifo.element_size] in A1.
  rewrite Hnil in A1. cbn [app] in A1.
  injection A1 as Hsize1 Hesize1 Hcont1.
  assert (Hused1 : ring_used rb1 = n).
  { rewrite <- (length_contents rb1 Hinv1), Hcont1, length_elements. lia. }
  assert (Hmin1 : Z.min n (ring_used rb1) = n) by lia.
  destruct (get_refines rb1 Hinv1 dst n) as (rb2 & E2 & A2 & Hinv2);
    [lia|rewrite Hmin1, Hesize1; assumption|].
  unfold Fifo.get in E2, A2. cbn [fst snd] in E2, A2.
  assert (Hact1 : Z.min n (Fifo.used (abs rb1)) = n).
  { unfold Fifo.used, abs. cbn [Fifo.queue].
    rewrite length_contents by assumption. lia. }
  rewrite Hact1 in E2, A2.
  cbn [abs Fifo.queue Fifo.capacity Fifo.element_size] in E2, A2.
  rewrite Hcont1, Hesize1 in E2.
  rewrite firstn_all2 in E2 by (rewrite length_elements; lia).
  rewrite concat_elements in E2
    by (assumption || lia || exact (inv_esize rb Hinv)).
  exists rb1, rb2. split; [exact E1|]. split; [exact E2|].
  injection A2 as _ _ Hcont2.
  rewrite <- (length_contents rb2 Hinv2), Hcont2, length_skipn.
  pose proof (length_contents rb1 Hinv1). lia.
Qed.

Lemma put_get_roundtrip_witness :
  exists rb1 rb2,
    ring_put (sample 3 3) [x4a; x4b; x5a; x5b; x6a; x6b] 3 = Some (rb1, 3)
    /\ ring_get rb1 [xff; xff; xff; xff; xff; xff; xff; xff] 3
       = Some (rb2,
               bytes_at [x4a; x4b; x5a; x5b; x6a; x6b] 0
                 (3 * esize (sample 3 3))
               ++ skipn (Z.to_nat (3 * esize (sample 3 3)))
                    [xff; xff; xff; xff; xff; xff; xff; xff],
               3)
    /\ ring_used rb2 = 0.
Proof.
  apply (put_get_roundtrip (sample 3 3) [x4a; x4b; x5a; x5b; x6a; x6b]
           [xff; xff; xff; xff; xff; xff; xff; xff] 3).
  - closed_inv 2.
  - reflexivity.
  - vm_compute. split; discriminate.
  - vm_compute. discriminate.
  - vm_compute. discriminate.
Defined.

(** The same round trip evaluated: the run starts in the last slot of the
    region, so the first copy takes one element and the second copy takes
    the other two from the start of the region. *)
Example put_get_wraps :
  ring_span (sample 3 3) 3 3 = (6, 2, 4)
  /\ (r <- ring_put (sample 3 3) [x4a; x4b; x5a; x5b; x6a; x6b] 3 ;;
      ring_get (fst r) [xff; xff; xff; xff; xff; xff; xff; xff] 3)
     = Some (mkRing [x5a; x5b; x6a; x6b; x2a; x2b; x4a; x4b] 4 3 2 6 6,
             [x4a; x4b; x5a; x5b; x6a; x6b; xff; xff], 3).
Proof. split; reflexivity. Qed.

(** ** Reachable states *)

Lemma ring_buffer_init_inv (rb0 : ring) (buf : list byte) (sz es : Z) rb :
  0 <= sz < 2 ^ 32 -> 0 < es < 2 ^ 32 -> sz <= nbytes buf ->
  ring_buffer_init rb0 buf sz es = Some (0, rb) ->
  ring_inv rb.
Proof.
  intros Hsz Hes Hbuf E.
  destruct (ring_buffer_init_cases rb0 buf sz es Hsz Hes)
    as [(_ & E')|[(_ & _ & E')|(Hge & Hp & E')]];
    rewrite E' in E; try discriminate E.
  injection E as <-.
  pose proof (Z.mul_div_le sz es ltac:(lia)) as Hle.
  constructor; cbn [buffer size mask esize head tail];
    try assumption; try lia.
  change (wrap32 (0 - 0)) with 0. lia.
Qed.

Lemma reachable_ring_inv (rb : ring) : reachable rb -> ring_inv rb.
Proof.
  induction 1 as [rb0 buf sz es rb Hsz Hes Hbuf E
                 |rb src n rb' r _ IH Hn E
                 |rb dst n rb' dst' r _ IH Hn E].
  - exact (ring_buffer_init_inv rb0 buf sz es rb Hsz Hes Hbuf E).
  - pose proof (ring_put_area rb IH src n _ ltac:(lia) E) as Hsrc.
    destruct (ring_put_defined rb IH src n ltac:(lia) Hsrc)
      as (b & _ & Lb & E').
    rewrite E' in E. injection E as <- _.
    apply ring_inv_put; [assumption|assumption|].
    apply put_count_range; [assumption|lia].
  - pose proof (ring_get_area rb IH dst n _ ltac:(lia) E) as Hdst.
    rewrite (ring_get_defined rb IH dst n ltac:(lia) Hdst) in E.
    injection E as <- _ _.
    apply ring_inv_get; [assumption|].
    apply get_count_range; [assumption|lia].
Qed.

(** C4: in every state reachable from a successful initialisation by
    [ring_put] and [ring_get] calls, the element count is a power of two
    and at least 2, [head - tail] in unsigned 32-bit arithmetic lies between
    0 and the element count, and [ring_space] and [ring_used] add up to the
    element count. *)
Theorem reachable_accounting (rb : ring) :
  reachable rb ->
  (is_pow2 (size rb) /\ 2 <= size rb)
  /\ 0 <= wrap32 (head rb - tail rb) <= size rb
  /\ ring_space rb + ring_used rb = size rb.
Proof.
  intros Hreach. pose proof (reachable_ring_inv rb Hreach) as Hinv.
  split; [split; [exact (inv_pow2 rb Hinv)|exact (inv_size rb Hinv)]|].
  split; [exact (ring_used_range rb Hinv)|].
  rewrite ring_space_eq by assumption. lia.
Qed.

Lemma reachable_accounting_witness :
  (is_pow2 (size (sample 3 1)) /\ 2 <= size (sample 3 1))
  /\ 0 <= wrap32 (head (sample 3 1) - tail (sample 3 1)) <= size (sample 3 1)
  /\ ring_space (sample 3 1) + ring_used (sample 3 1) = size (sample 3 1).
Proof.
  apply (reachable_accounting (sample 3 1)).
  apply (reach_get
           (mkRing [x0a; x0b; x1a; x1b; x2a; x2b; x3a; x3b] 4 3 2 3 0)
           [xff; xff] 1 _ [x0a; x0b] 1); [|lia|reflexivity].
  apply (reach_put
           (mkRing [x00; x00; x00; x00; x00; x00; x3a; x3b] 4 3 2 0 0)
           [x0a; x0b; x1a; x1b; x2a; x2b] 3 _ 3); [|lia|reflexivity].
  apply (reach_init (mkRing [] 0 0 0 0 0)
           [x00; x00; x00; x00; x00; x00; x3a; x3b] 8 2);
    [lia|lia|vm_compute; discriminate|reflexivity].
Defined.

(** ** Runs of calls, with the counters anywhere *)

Lemma fifo_step_element_size (q : Fifo.t) (c : call) :
  Fifo.element_size (fst (Fifo.step q c)) = Fifo.element_size q.
Proof. destruct c; reflexivity. Qed.

Lemma step_refines (rb : ring) (c : call) :
  ring_inv rb -> call_ok (esize rb) c ->
  exists rb',
    step rb c = Some (rb', snd (Fifo.step (abs rb) c))
    /\ abs rb' = fst (Fifo.step (abs rb) c)
    /\ ring_inv rb'.
Proof.
  intros Hinv Hc. pose proof (inv_esize rb Hinv) as He.
  pose proof (ring_used_range rb Hinv) as Hu.
  pose proof (ring_space_eq rb Hinv) as Hs.
  destruct c as [src n|dst n]; cbn [call_ok] in Hc; destruct Hc as [Hn Ha].
  - destruct (put_refines rb Hinv src n) as (rb' & E & A & Hinv');
      [lia|nia|].
    exists rb'. cbn [step Fifo.step]. rewrite E. cbn [bind fst snd].
    auto.
  - destruct (get_refines rb Hinv dst n) as (rb' & E & A & Hinv');
      [lia|nia|].
    exists rb'. cbn [step Fifo.step]. rewrite E. cbn [bind fst snd].
    auto.
Qed.

Lemma run_refines (cs : list call) (rb : ring) :
  ring_inv rb -> Forall (call_ok (esize rb)) cs ->
  exists rb',
    run rb cs = Some (rb', snd (Fifo.run (abs rb) cs))
    /\ abs rb' = fst (Fifo.run (abs rb) cs)
    /\ ring_inv rb'.
Proof.
  revert rb. induction cs as [|c cs IH]; intros rb Hinv Hcs.
  - exists rb. cbn. auto.
  - inversion Hcs as [|c' cs' Hc Hcs' Ec]; subst.
    destruct (step_refines rb c Hinv Hc) as (rb1 & E1 & A1 & Hinv1).
    assert (He : esize rb1 = esize rb).
    { change (Fifo.element_size (abs rb1) = Fifo.element_size (abs rb)).
      rewrite A1. apply fifo_step_element_size. }
    rewrite <- He in Hcs'.
    destruct (IH rb1 Hinv1 Hcs') as (rb' & E' & A' & Hinv').
    exists rb'. cbn [run Fifo.run]. rewrite E1. cbn [bind fst snd].
    rewrite E', <- A1. cbn [bind fst snd]. auto.
Qed.

(** Consecutive logical indices occupy cyclically consecutive slots, also
    when the index passes 2^32. *)
Lemma slot_of_wrapped_index (rb : ring) (i j : Z) :
  ring_inv rb ->
  Z.land (wrap32 (i + j)) (mask rb) = (Z.land i (mask rb) + j) mod size rb.
Proof.
  intros Hinv. rewrite !land_mask, wrap32_mod_size by assumption.
  rewrite Z.add_mod_idemp_l by (pose proof (size_pos rb Hinv); lia).
  reflexivity.
Qed.

(** C5: take an initialised buffer whose [head] and [tail] are any 32-bit
    values the invariant allows (nothing orders them, so [head] may already
    have wrapped past [tail], or be about to), and any sequence of
    [ring_put] / [ring_get] calls on areas that hold the requested counts.
    Every call is defined and returns what the index-free queue of the
    specification returns, started from the stored elements: the same
    counts and the same bytes in the same order.  Afterwards the counters
    are again 32-bit values satisfying the invariant, the stored elements
    are those of the queue, [head - tail] modulo 2^32 is the queue's length,
    and the slot of logical index [i + j] modulo 2^32 is [j] slots,
    cyclically, after the slot of [i]. *)
Theorem wrapped_counters_refine_fifo (rb : ring) (cs : list call) :
  ring_inv rb -> Forall (call_ok (esize rb)) cs ->
  exists rb',
    run rb cs = Some (rb', snd (Fifo.run (abs rb) cs))
    /\ abs rb' = fst (Fifo.run (abs rb) cs)
    /\ ring_inv rb'
    /\ wrap32 (head rb' - tail rb')
       = Z.of_nat (length (Fifo.queue (fst (Fifo.run (abs rb) cs))))
    /\ forall i j,
         Z.land (wrap32 (i + j)) (mask rb')
         = (Z.land i (mask rb') + j) mod size rb'.
Proof.
  intros Hinv Hcs.
  destruct (run_refines cs rb Hinv Hcs) as (rb' & E & A & Hinv').
  exists rb'. split; [exact E|]. split; [exact A|]. split; [exact Hinv'|].
  split.
  - rewrite <- A. cbn [abs Fifo.queue].
    rewrite length_contents by assumption. reflexivity.
  - intros i j. apply slot_of_wrapped_index. assumption.
Qed.

Lemma wrapped_counters_refine_fifo_witness :
  exists rb',
    run (sample UINT32_MAX (UINT32_MAX - 1))
      [Put [x4a; x4b; x5a; x5b; x6a; x6b] 3;
       Get [xff; xff; xff; xff; xff; xff] 3]
    = Some (rb',
            snd (Fifo.run (abs (sample UINT32_MAX (UINT32_MAX - 1)))
                   [Put [x4a; x4b; x5a; x5b; x6a; x6b] 3;
                    Get [xff; xff; xff; xff; xff; xff] 3]))
    /\ abs rb'
       = fst (Fifo.run (abs (sample UINT32_MAX (UINT32_MAX - 1)))
                [Put [x4a; x4b; x5a; x5b; x6a; x6b] 3;
                 Get [xff; xff; xff; xff; xff; xff] 3])
    /\ ring_inv rb'
    /\ wrap32 (head rb' - tail rb')
       = Z.of_nat
           (length
              (Fifo.queue
                 (fst (Fifo.run (abs (sample UINT32_MAX (UINT32_MAX - 1)))
                         [Put [x4a; x4b; x5a; x5b; x6a; x6b] 3;
                          Get [xff; xff; xff; xff; xff; xff] 3]))))
    /\ forall i j,
         Z.land (wrap32 (i + j)) (mask rb')
         = (Z.land i (mask rb') + j) mod size rb'.
Proof.
  apply (wrapped_counters_refine_fifo (sample UINT32_MAX (UINT32_MAX - 1))
           [Put [x4a; x4b; x5a; x5b; x6a; x6b] 3;
            Get [xff; xff; xff; xff; xff; xff] 3]).
  - closed_inv 2.
  - repeat constructor; vm_compute; discriminate.
Defined.

(** The overflow test of [main.c] (lines 94-95 force both counters to
    [UINT32_MAX - 4]), evaluated over two rounds of 3 elements: [head]
    passes 2^32 in the second [ring_put], [tail] in the second [ring_get],
    and the calls return what they return from counters at 0. *)
Example counters_overflow :
  let cs := [Put [x4a; x4b; x5a; x5b; x6a; x6b] 3;
             Get [xff; xff; xff; xff; xff; xff] 3;
             Put [x7a; x7b; x8a; x8b; x9a; x9b] 3;
             Put [xaa; xab; xba; xbb] 2;
             Get [xff; xff; xff; xff; xff; xff; xff; xff] 4] in
  let outs := [Wrote 3; Read 3 [x4a; x4b; x5a; x5b; x6a; x6b];
               Wrote 3; Wrote 1;
               Read 4 [x7a; x7b; x8a; x8b; x9a; x9b; xaa; xab]] in
  option_map snd (run (sample (UINT32_MAX - 4) (UINT32_MAX - 4)) cs)
    = Some outs
  /\ option_map snd (run (sample 0 0) cs) = Some outs
  /\ option_map (fun r => (head (fst r), tail (fst r)))
       (run (sample (UINT32_MAX - 4) (UINT32_MAX - 4)) cs)
     = Some (2, 2).
Proof. repeat split; vm_compute; reflexivity. Qed.

(** ** What a call leaves alone *)

(** A byte of the region that [__ring_put] changes lies in the slot of one
    of the logical indices [h, h + 1, ..., h + n - 1]. *)
Lemma __ring_put_frame (rb : ring) (src : list byte) (n h : Z) (b : list byte)
  (p : Z) :
  ring_inv rb -> 0 <= n <= size rb -> 0 <= p ->
  __ring_put rb src n h = Some (set_buffer rb b) ->
  (forall j, 0 <= j < n ->
     p / esize rb <> Z.land (wrap32 (h + j)) (mask rb)) ->
  byte_at b p = byte_at (buffer rb) p.
Proof.
  intros Hinv Hn Hp E Hout.
  pose proof (__ring_put_area rb Hinv src n h _ Hn E) as Hsrc.
  destruct (__ring_put_bytes rb Hinv src n h Hn Hsrc) as (b' & E' & _ & Hb).
  assert (b' = b) by (rewrite E' in E; injection E; trivial). subst b'.
  rewrite (Hb p Hp). cbv zeta.
  destruct (region_facts rb Hinv h) as (He & HS & Hreg & Hoff0 & Hoff1).
  pose proof (size_pos rb Hinv) as Hsz.
  set (d := (p - h mod size rb * esize rb) mod (size rb * esize rb)).
  pose proof (Z.mod_pos_bound (p - h mod size rb * esize rb) _ HS) as Hd.
  fold d in Hd.
  destruct (Z.ltb_spec p (size rb * esize rb)) as [HpS|]; [|reflexivity].
  destruct (Z.ltb_spec d (n * esize rb)) as [HdN|]; [|reflexivity].
  exfalso. apply (Hout (d / esize rb)).
  { split; [apply Z.div_pos; lia|apply Z.div_lt_upper_bound; lia]. }
  rewrite land_mask, wrap32_mod_size by assumption.
  assert (Ep : p = (h mod size rb * esize rb + d) mod (size rb * esize rb)).
  { subst d. rewrite Zplus_mod_idemp_r.
    replace (h mod size rb * esize rb + (p - h mod size rb * esize rb))
      with p by ring.
    symmetry. apply Z.mod_small. lia. }
  pose proof (Z.div_mod d (esize rb) ltac:(lia)) as Ed.
  pose proof (Z.mod_pos_bound d (esize rb) He) as Hr.
  replace (h mod size rb * esize rb + d)
    with ((h mod size rb + d / esize rb) * esize rb + d mod esize rb)
    in Ep by (rewrite Ed at 3; ring).
  rewrite scaled_mod, Z.add_mod_idemp_l in Ep by lia.
  rewrite Ep at 1. apply scaled_div. assumption.
Qed.

(** C8: on an initialised buffer, [ring_put] leaves [tail] (and [size],
    [mask], [esize] and the length of the region) as they were, advances
    [head] by the count it returns, and changes no byte of the region
    outside the slots of the logical indices [head, ..., head + count - 1];
    [ring_get] changes the struct in [tail] only, so [head] and every byte
    of the region are as they were.  ([ring_space] and [ring_used] are
    functions of the struct to a number: they have nothing to change.) *)
Theorem put_get_frame (rb : ring) (src dst : list byte) (len : Z) :
  ring_inv rb -> 0 <= len < 2 ^ 32 ->
  Z.min len (ring_space rb) * esize rb <= nbytes src ->
  Z.min len (ring_used rb) * esize rb <= nbytes dst ->
  (exists rb' n,
     ring_put rb src len = Some (rb', n)
     /\ tail rb' = tail rb
     /\ (size rb' = size rb /\ mask rb' = mask rb /\ esize rb' = esize rb)
     /\ head rb' = wrap32 (head rb + n)
     /\ nbytes (buffer rb') = nbytes (buffer rb)
     /\ forall p, 0 <= p ->
          (forall j, 0 <= j < n ->
             p / esize rb <> Z.land (wrap32 (head rb + j)) (mask rb)) ->
          byte_at (buffer rb') p = byte_at (buffer rb) p)
  /\ (exists dst' n,
        ring_get rb dst len
        = Some (set_tail rb (wrap32 (tail rb + n)), dst', n)
        /\ head (set_tail rb (wrap32 (tail rb + n))) = head rb
        /\ buffer (set_tail rb (wrap32 (tail rb + n))) = buffer rb).
Proof.
  intros Hinv Hlen Hsrc Hdst. split.
  - destruct (put_count_range rb Hinv len ltac:(lia)) as [Hn Hn'].
    destruct (ring_put_defined rb Hinv src len ltac:(lia) Hsrc)
      as (b & Eb & Lb & E).
    eexists _, _. split; [exact E|].
    cbn [set_head set_buffer buffer size mask esize head tail].
    split; [reflexivity|]. split; [auto|]. split; [reflexivity|].
    split; [exact Lb|].
    intros p Hp Hout.
    apply (__ring_put_frame rb src (Z.min len (ring_space rb)) (head rb)
             b p Hinv); try assumption.
    lia.
  - eexists _, _. split.
    + apply (ring_get_defined rb Hinv dst len); [lia|assumption].
    + split; reflexivity.
Qed.

Lemma put_get_frame_witness :
  (exists rb' n,
     ring_put (sample 3 1) [x4a; x4b; x5a; x5b; x6a; x6b] 3 = Some (rb', n)
     /\ tail rb' = tail (sample 3 1)
     /\ (size rb' = size (sample 3 1) /\ mask rb' = mask (sample 3 1)
         /\ esize rb' = esize (sample 3 1))
     /\ head rb' = wrap32 (head (sample 3 1) + n)
     /\ nbytes (buffer rb') = nbytes (buffer (sample 3 1))
     /\ forall p, 0 <= p ->
          (forall j, 0 <= j < n ->
             p / esize (sample 3 1)
             <> Z.land (wrap32 (head (sample 3 1) + j)) (mask (sample 3 1))) ->
          byte_at (buffer rb') p = byte_at (buffer (sample 3 1)) p)
  /\ (exists dst' n,
        ring_get (sample 3 1) [xff; xff; xff; xff; xff; xff] 3
        = Some (set_tail (sample 3 1) (wrap32 (tail (sample 3 1) + n)),
                dst', n)
        /\ head (set_tail (sample 3 1) (wrap32 (tail (sample 3 1) + n)))
           = head (sample 3 1)
        /\ buffer (set_tail (sample 3 1) (wrap32 (tail (sample 3 1) + n)))
           = buffer (sample 3 1)).
Proof.
  apply (put_get_frame (sample 3 1) [x4a; x4b; x5a; x5b; x6a; x6b]
           [xff; xff; xff; xff; xff; xff] 3).
  - closed_inv 2.
  - lia.
  - vm_compute. discriminate.
  - vm_compute. discriminate.
Defined.

(** ** The split copy stays in bounds *)

Lemma span_in_bounds_any (rb : ring) (n i : Z) :
  ring_inv rb -> 0 <= n <= size rb -> span_in_bounds rb n i.
Proof.
  intros Hinv Hn. unfold span_in_bounds.
  pose proof (ring_span_eq rb Hinv n i Hn) as Hspan. cbv zeta in Hspan.
  rewrite Hspan. cbv beta iota zeta.
  destruct (region_facts rb Hinv i) as (He & HS & Hreg & Hoff0 & Hoff1).
  assert (HN : 0 <= n * esize rb <= size rb * esize rb) by nia.
  lia.
Qed.

(** C10: on an initialised buffer, for the count and index [ring_put]
    passes to [__ring_put] and for those [ring_get] passes to [__ring_get]:
    the first segment is [l = min (len, size - offset)] bytes (in bytes,
    after masking and scaling) and ends at or before the end of the region,
    which lies inside the area [buffer] points to; the second segment is
    [len - l] bytes from byte 0 and ends at or before [offset]; together
    they are the bytes of the run.  With an area that holds the count the
    call copies, every [memcpy] of the call is inside its areas. *)
Theorem split_copy_in_bounds (rb : ring) (src dst : list byte) (len : Z) :
  ring_inv rb -> 0 <= len < 2 ^ 32 ->
  (span_in_bounds rb (min len (wrap32 (ring_space rb))) (head rb)
   /\ (min len (wrap32 (ring_space rb)) * esize rb <= nbytes src ->
       ring_put rb src len <> None))
  /\ (span_in_bounds rb (min (wrap32 (ring_used rb)) len) (tail rb)
      /\ (min (wrap32 (ring_used rb)) len * esize rb <= nbytes dst ->
          ring_get rb dst len <> None)).
Proof.
  intros Hinv Hlen.
  destruct (put_count_range rb Hinv len ltac:(lia)) as [Hp Hp'].
  destruct (get_count_range rb Hinv len ltac:(lia)) as [Hg Hg'].
  rewrite ring_put_count, ring_get_count by assumption.
  split; split.
  - apply span_in_bounds_any; [assumption|lia].
  - intros Hsrc.
    destruct (ring_put_defined rb Hinv src len ltac:(lia) Hsrc)
      as (b & _ & _ & E).
    rewrite E. discriminate.
  - apply span_in_bounds_any; [assumption|lia].
  - intros Hdst.
    rewrite (ring_get_defined rb Hinv dst len ltac:(lia) Hdst).
    discriminate.
Qed.

Lemma split_copy_in_bounds_witness :
  (span_in_bounds (sample 7 5) (min 3 (wrap32 (ring_space (sample 7 5))))
     (head (sample 7 5))
   /\ (min 3 (wrap32 (ring_space (sample 7 5))) * esize (sample 7 5)
       <= nbytes [x4a; x4b; x5a; x5b] ->
       ring_put (sample 7 5) [x4a; x4b; x5a; x5b] 3 <> None))
  /\ (span_in_bounds (sample 7 5) (min (wrap32 (ring_used (sample 7 5))) 3)
        (tail (sample 7 5))
      /\ (min (wrap32 (ring_used (sample 7 5))) 3 * esize (sample 7 5)
          <= nbytes [xff; xff; xff; xff] ->
          ring_get (sample 7 5) [xff; xff; xff; xff] 3 <> None)).
Proof.
  apply (split_copy_in_bounds (sample 7 5) [x4a; x4b; x5a; x5b]
           [xff; xff; xff; xff] 3).
  - closed_inv 2.
  - lia.
Defined.

(** The bounds evaluated where the run wraps: 2 elements written from the
    last slot take bytes 6-7 and then bytes 0-1. *)
Example span_wraps :
  ring_span (sample 7 5) 2 7 = (6, 2, 2)
  /\ ring_span (sample 7 5) 2 5 = (2, 4, 0).
Proof. split; reflexivity. Qed.

(** ** The scenarios of main.c

    An 8-byte region with 2-byte elements (4 elements).  Each single write
    hands over the 4 bytes of an [int], of which the first 2 are copied. *)

Example scenario_init :
  ring_buffer_init (mkRing [] 0 0 0 0 0) (repeat x00 8) 8 2
  = Some (0, mkRing (repeat x00 8) 4 3 2 0 0).
Proof. reflexivity. Qed.

(** Eight single writes, then eight single reads: four of each succeed. *)
Example scenario_single_elements :
  let int_bytes b := [b; x00; x00; x00] in
  let puts := map (fun b => Put (int_bytes b) 1)
                [x00; x01; x02; x03; x04; x05; x06; x07] in
  let gets := repeat (Get [xff; xff] 1) 8 in
  option_map snd (run (mkRing (repeat x00 8) 4 3 2 0 0) (puts ++ gets))
  = Some ([Wrote 1; Wrote 1; Wrote 1; Wrote 1;
           Wrote 0; Wrote 0; Wrote 0; Wrote 0]
          ++ [Read 1 [x00; x00]; Read 1 [x01; x00];
              Read 1 [x02; x00]; Read 1 [x03; x00]]
          ++ repeat (Read 0 [xff; xff]) 4).
Proof. vm_compute. reflexivity. Qed.

(** A batch of 3 into the empty buffer, then a second batch of 3. *)
Example scenario_batches :
  let rb := mkRing (repeat x00 8) 4 3 2 0 0 in
  exists rb1 rb2,
    ring_put rb [x0a; x0b; x1a; x1b; x2a; x2b] 3 = Some (rb1, 3)
    /\ ring_used rb1 = 3 /\ ring_space rb1 = 1
    /\ ring_put rb1 [x3a; x3b; x4a; x4b; x5a; x5b] 3 = Some (rb2, 1)
    /\ ring_used rb2 = 4 /\ ring_space rb2 = 0.
Proof. eexists _, _. repeat split; vm_compute; reflexivity. Qed.

(** * Further properties of the code *)

(** ** When a call is defined *)

Lemma memcpy_nothing (dst : list byte) (d : Z) (src : list byte) (s : Z) :
  0 <= d <= nbytes dst -> 0 <= s <= nbytes src ->
  memcpy dst d src s 0 = Some dst.
Proof.
  intros Hd Hs.
  destruct (memcpy_defined dst d src s 0) as [r E]; try lia.
  rewrite E. f_equal. apply byte_at_ext. intros i Hi.
  rewrite (memcpy_byte_at _ _ _ _ _ _ _ E Hi).
  destruct (Z.leb_spec d i), (Z.ltb_spec i (d + 0)); cbn; try reflexivity; lia.
Qed.

(** X1: on an initialised buffer, [ring_put] is free of undefined
    behaviour exactly when the source area holds the elements the call
    settles on, [min (len, ring_space rb) * esize] bytes: it reads all of
    them, whatever [len] asked for beyond the free space is never read. *)
Theorem ring_put_defined_iff (rb : ring) (src : list byte) (len : Z) :
  ring_inv rb -> 0 <= len < 2 ^ 32 ->
  (ring_put rb src len <> None
   <-> Z.min len (ring_space rb) * esize rb <= nbytes src).
Proof.
  intros Hinv Hlen. split.
  - destruct (ring_put rb src len) as [r|] eqn:E; [|congruence].
    intros _. apply (ring_put_area rb Hinv src len r); [lia|exact E].
  - intros Hsrc.
    destruct (ring_put_defined rb Hinv src len ltac:(lia) Hsrc)
      as (b & _ & _ & E).
    rewrite E. discriminate.
Qed.

Lemma ring_put_defined_iff_witness :
  ring_put (sample 3 1) [x4a; x4b; x5a; x5b] 3 <> None
  <-> Z.min 3 (ring_space (sample 3 1)) * esize (sample 3 1)
      <= nbytes [x4a; x4b; x5a; x5b].
Proof.
  apply (ring_put_defined_iff (sample 3 1) [x4a; x4b; x5a; x5b] 3).
  - closed_inv 2.
  - lia.
Defined.

(** X2: on an initialised buffer, [ring_get] is free of undefined
    behaviour exactly when the destination area has room for the elements
    the call settles on, [min (len, ring_used rb) * esize] bytes. *)
Theorem ring_get_defined_iff (rb : ring) (dst : list byte) (len : Z) :
  ring_inv rb -> 0 <= len < 2 ^ 32 ->
  (ring_get rb dst len <> None
   <-> Z.min len (ring_used rb) * esize rb <= nbytes dst).
Proof.
  intros Hinv Hlen. split.
  - destruct (ring_get rb dst len) as [r|] eqn:E; [|congruence].
    intros _. apply (ring_get_area rb Hinv dst len r); [lia|exact E].
  - intros Hdst.
    rewrite (ring_get_defined rb Hinv dst len ltac:(lia) Hdst).
    discriminate.
Qed.

Lemma ring_get_defined_iff_witness :
  ring_get (sample 3 1) [xff; xff; xff] 2 <> None
  <-> Z.min 2 (ring_used (sample 3 1)) * esize (sample 3 1)
      <= nbytes [xff; xff; xff].
Proof.
  apply (ring_get_defined_iff (sample 3 1) [xff; xff; xff] 2).
  - closed_inv 2.
  - lia.
Defined.

(** ** After ring_buffer_init *)

(** X3: a [ring_buffer_init] that returns 0 over a region of the announced
    [sz] bytes leaves an initialised, empty buffer: the invariant holds,
    the region's bytes are the caller's (the function writes none),
    [ring_used] is 0, [ring_space] is [sz / es], the elements cover at most
    [sz] bytes, and a read returns 0 and changes nothing. *)
Theorem init_gives_empty_buffer
  (rb0 : ring) (buf : list byte) (sz es : Z) (rb : ring) :
  0 <= sz < 2 ^ 32 -> 0 < es < 2 ^ 32 -> sz <= nbytes buf ->
  ring_buffer_init rb0 buf sz es = Some (0, rb) ->
  ring_inv rb
  /\ buffer rb = buf
  /\ ring_used rb = 0
  /\ ring_space rb = sz / es
  /\ contents rb = []
  /\ size rb * esize rb <= sz
  /\ forall dst len, 0 <= len -> ring_get rb dst len = Some (rb, dst, 0).
Proof.
  intros Hsz Hes Hbuf E.
  pose proof (ring_buffer_init_inv rb0 buf sz es rb Hsz Hes Hbuf E) as Hinv.
  destruct (ring_buffer_init_cases rb0 buf sz es Hsz Hes)
    as [(_ & E')|[(_ & _ & E')|(Hge & Hp & E')]];
    rewrite E' in E; try discriminate E.
  injection E as E.
  assert (Hused : ring_used rb = 0) by (rewrite <- E; reflexivity).
  split; [exact Hinv|]. split; [rewrite <- E; reflexivity|].
  split; [exact Hused|].
  split; [rewrite ring_space_eq, Hused, <- E by assumption; cbn; lia|].
  split; [unfold contents; rewrite Hused; reflexivity|].
  split.
  - rewrite <- E. cbn [size esize]. rewrite Z.mul_comm.
    apply Z.mul_div_le. lia.
  - intros dst len Hlen. apply ring_get_nothing; [assumption|lia|lia].
Qed.

Lemma init_gives_empty_buffer_witness :
  ring_inv (mkRing (repeat x00 9) 4 3 2 0 0)
  /\ buffer (mkRing (repeat x00 9) 4 3 2 0 0) = repeat x00 9
  /\ ring_used (mkRing (repeat x00 9) 4 3 2 0 0) = 0
  /\ ring_space (mkRing (repeat x00 9) 4 3 2 0 0) = 9 / 2
  /\ contents (mkRing (repeat x00 9) 4 3 2 0 0) = []
  /\ size (mkRing (repeat x00 9) 4 3 2 0 0)
     * esize (mkRing (repeat x00 9) 4 3 2 0 0) <= 9
  /\ forall dst len, 0 <= len ->
       ring_get (mkRing (repeat x00 9) 4 3 2 0 0) dst len
       = Some (mkRing (repeat x00 9) 4 3 2 0 0, dst, 0).
Proof.
  apply (init_gives_empty_buffer (mkRing [] 0 0 0 0 0) (repeat x00 9) 9 2);
    [lia|lia|vm_compute; discriminate|reflexivity].
Defined.

(** X8: a region too small for one element ([sz < es], 0 elements) is
    refused with [mask = 0] and [size = 0], and the struct it leaves is
    inert: every later [ring_put] and [ring_get] returns 0 and changes
    neither the struct nor the areas, without touching memory. *)
Theorem refused_empty_region_is_inert
  (rb0 : ring) (buf : list byte) (sz es : Z) :
  0 <= sz < es -> es < 2 ^ 32 ->
  exists rb,
    ring_buffer_init rb0 buf sz es = Some (- EINVAL, rb)
    /\ mask rb = 0 /\ size rb = 0
    /\ forall a len, 0 <= len ->
         ring_put rb a len = Some (rb, 0)
         /\ ring_get rb a len = Some (rb, a, 0).
Proof.
  intros Hsz Hes. exists (mkRing buf 0 0 es 0 0).
  assert (Hlen : forall l : list byte, 0 <= 0 <= nbytes l)
    by (intros l; unfold nbytes; lia).
  assert (Hspan : ring_span (mkRing buf 0 0 es 0 0) 0 0 = (0, 0, 0)).
  { unfold ring_span. cbn [size esize mask].
    destruct (negb (es =? 1)); reflexivity. }
  split; [|split; [reflexivity|split; [reflexivity|]]].
  - unfold ring_buffer_init.
    destruct (Z.eqb_spec es 0); [lia|].
    rewrite Z.div_small by lia. reflexivity.
  - intros a len Hl.
    assert (Hmin : min len 0 = 0).
    { unfold min. destruct (Z.ltb_spec len 0); [lia|reflexivity]. }
    split.
    + unfold ring_put.
      change (wrap32 (ring_space (mkRing buf 0 0 es 0 0))) with 0.
      rewrite Hmin. cbn [head]. unfold __ring_put. rewrite Hspan.
      cbv beta iota zeta. rewrite memcpy_nothing by apply Hlen.
      cbn [bind]. rewrite memcpy_nothing by apply Hlen. reflexivity.
    + unfold ring_get.
      change (wrap32 (ring_used (mkRing buf 0 0 es 0 0))) with 0.
      change (min 0 len) with (if 0 <? len then 0 else len).
      assert (Hmin' : (if 0 <? len then 0 else len) = 0)
        by (destruct (Z.ltb_spec 0 len); lia).
      rewrite Hmin'. cbn [tail]. unfold __ring_get. rewrite Hspan.
      cbv beta iota zeta. rewrite memcpy_nothing by apply Hlen.
      cbn [bind]. rewrite memcpy_nothing by apply Hlen. reflexivity.
Qed.

Lemma refused_empty_region_is_inert_witness :
  exists rb,
    ring_buffer_init (sample 3 1) [x00] 1 2 = Some (- EINVAL, rb)
    /\ mask rb = 0 /\ size rb = 0
    /\ forall a len, 0 <= len ->
         ring_put rb a len = Some (rb, 0)
         /\ ring_get rb a len = Some (rb, a, 0).
Proof.
  apply (refused_empty_region_is_inert (sample 3 1) [x00] 1 2); lia.
Defined.

(** ** Slots *)

(** X6: on an initialised buffer, two different logical indices less than
    [size] apart (counted modulo 2^32, so also across the overflow of the
    counters) have slots that lie inside the region and do not overlap:
    no stored element shares a byte with another. *)
Theorem window_slots_disjoint (rb : ring) (i j1 j2 : Z) :
  ring_inv rb -> 0 <= j1 < j2 -> j2 < size rb ->
  (0 <= slot rb (wrap32 (i + j1))
   /\ slot rb (wrap32 (i + j1)) + esize rb <= size rb * esize rb)
  /\ (0 <= slot rb (wrap32 (i + j2))
      /\ slot rb (wrap32 (i + j2)) + esize rb <= size rb * esize rb)
  /\ (slot rb (wrap32 (i + j1)) + esize rb <= slot rb (wrap32 (i + j2))
      \/ slot rb (wrap32 (i + j2)) + esize rb <= slot rb (wrap32 (i + j1))).
Proof.
  intros Hinv Hj1 Hj2.
  pose proof (size_pos rb Hinv) as Hsz.
  pose proof (inv_esize rb Hinv) as He.
  pose proof (slot_range rb Hinv i) as Hq.
  rewrite !slot_eq, !wrap32_mod_size by assumption.
  rewrite <- (Zplus_mod_idemp_l i j1), <- (Zplus_mod_idemp_l i j2).
  rewrite (mod_once_up (i mod size rb + j1)) by lia.
  rewrite (mod_once_up (i mod size rb + j2)) by lia.
  destruct (Z.ltb_spec (i mod size rb + j1) (size rb));
    destruct (Z.ltb_spec (i mod size rb + j2) (size rb)); nia.
Qed.

Lemma window_slots_disjoint_witness :
  (0 <= slot (sample 3 1) (wrap32 (UINT32_MAX + 0))
   /\ slot (sample 3 1) (wrap32 (UINT32_MAX + 0)) + esize (sample 3 1)
      <= size (sample 3 1) * esize (sample 3 1))
  /\ (0 <= slot (sample 3 1) (wrap32 (UINT32_MAX + 1))
      /\ slot (sample 3 1) (wrap32 (UINT32_MAX + 1)) + esize (sample 3 1)
         <= size (sample 3 1) * esize (sample 3 1))
  /\ (slot (sample 3 1) (wrap32 (UINT32_MAX + 0)) + esize (sample 3 1)
      <= slot (sample 3 1) (wrap32 (UINT32_MAX + 1))
      \/ slot (sample 3 1) (wrap32 (UINT32_MAX + 1)) + esize (sample 3 1)
         <= slot (sample 3 1) (wrap32 (UINT32_MAX + 0))).
Proof.
  apply (window_slots_disjoint (sample 3 1) UINT32_MAX 0 1).
  - closed_inv 2.
  - lia.
  - vm_compute. reflexivity.
Defined.

(** ** What a run keeps and counts *)

(** One defined call: the struct it leaves, and its report. *)
Lemma step_shape (rb : ring) (c : call) (rb1 : ring) (o : outcome) :
  ring_inv rb -> uint32_count c -> step rb c = Some (rb1, o) ->
  ring_inv rb1
  /\ (size rb1 = size rb /\ esize rb1 = esize rb
      /\ nbytes (buffer rb1) = nbytes (buffer rb))
  /\ (forall p, size rb * esize rb <= p ->
        byte_at (buffer rb1) p = byte_at (buffer rb) p)
  /\ head rb1 = wrap32 (head rb + written [o])
  /\ tail rb1 = wrap32 (tail rb + fetched [o])
  /\ ring_used rb1 = ring_used rb + written [o] - fetched [o].
Proof.
  intros Hinv Hc E. destruct c as [src n|dst n]; cbn [uint32_count] in Hc;
    cbn [step] in E.
  - destruct (ring_put rb src n) as [r|] eqn:Ep; [|discriminate].
    cbn [bind] in E. injection E as <- <-.
    pose proof (ring_put_area rb Hinv src n r ltac:(lia) Ep) as Hsrc.
    destruct (put_count_range rb Hinv n ltac:(lia)) as [Hn Hn'].
    assert (Hn0 : 0 <= Z.min n (ring_space rb) <= size rb) by lia.
    destruct (__ring_put_bytes rb Hinv src _ (head rb) Hn0 Hsrc)
      as (b & Eb & Lb & Hb).
    assert (Er : r = (set_head (set_buffer rb b)
                        (wrap32 (head rb + Z.min n (ring_space rb))),
                      Z.min n (ring_space rb))).
    { unfold ring_put in Ep. rewrite ring_put_count, Eb in Ep by assumption.
      cbn [bind] in Ep. injection Ep as <-. reflexivity. }
    subst r. cbn [fst snd written fetched].
    cbn [set_head set_buffer buffer size esize head tail].
    rewrite !Z.add_0_r, Z.sub_0_r.
    split; [apply ring_inv_put; assumption|].
    split; [auto|]. split.
    + intros p Hp.
      destruct (region_facts rb Hinv 0) as (_ & HS & _).
      rewrite (Hb p) by lia. cbv zeta.
      destruct (Z.ltb_spec p (size rb * esize rb)); [lia|].
      reflexivity.
    + split; [reflexivity|]. split.
      * symmetry. apply wrap32_small. exact (inv_tail rb Hinv).
      * apply (ring_used_put rb Hinv). assumption.
  - destruct (ring_get rb dst n) as [r|] eqn:Eg; [|discriminate].
    cbn [bind] in E. injection E as <- <-.
    pose proof (ring_get_area rb Hinv dst n r ltac:(lia) Eg) as Hdst.
    destruct (get_count_range rb Hinv n ltac:(lia)) as [Hn Hn'].
    rewrite (ring_get_defined rb Hinv dst n ltac:(lia) Hdst) in Eg.
    injection Eg as <-. cbn [fst snd written fetched].
    cbn [set_tail buffer size esize head tail].
    rewrite !Z.add_0_r.
    split; [apply ring_inv_get; assumption|].
    split; [auto|]. split; [reflexivity|].
    split; [symmetry; apply wrap32_small; exact (inv_head rb Hinv)|].
    split; [reflexivity|].
    apply (ring_used_get rb Hinv). assumption.
Qed.

(** X7: over any defined run of calls on an initialised buffer, the bytes
    of the region from [size * esize] on (what the truncating division of
    [ring_buffer_init] left over, and anything behind it) are never
    written, and the element count, the element size and the length of the
    region stay what they were. *)
Theorem run_keeps_remainder
  (cs : list call) (rb rb' : ring) (outs : list outcome) :
  ring_inv rb -> Forall uint32_count cs -> run rb cs = Some (rb', outs) ->
  (size rb' = size rb /\ esize rb' = esize rb
   /\ nbytes (buffer rb') = nbytes (buffer rb))
  /\ forall p, size rb * esize rb <= p ->
       byte_at (buffer rb') p = byte_at (buffer rb) p.
Proof.
  revert rb rb' outs.
  induction cs as [|c cs IH]; intros rb rb' outs Hinv Hcs E.
  - cbn in E. injection E as <- _. auto.
  - inversion Hcs as [|c' cs' Hc Hcs' Ec]; subst. cbn [run] in E.
    destruct (step rb c) as [[rb1 o]|] eqn:E1; [|discriminate].
    cbn [bind fst snd] in E.
    destruct (run rb1 cs) as [[rb2 outs2]|] eqn:E2; [|discriminate].
    cbn [bind fst snd] in E. injection E as <- _.
    destruct (step_shape rb c rb1 o Hinv Hc E1)
      as (Hinv1 & (Hs & He & Hl) & Hb & _).
    destruct (IH rb1 rb2 outs2 Hinv1 Hcs' E2) as ((Hs' & He' & Hl') & Hb').
    split; [repeat split; congruence|].
    intros p Hp. rewrite Hb' by (rewrite Hs, He; assumption).
    apply Hb. assumption.
Qed.

Lemma run_keeps_remainder_witness :
  (size (mkRing [x4a; x4b; x4a; x4b; x5a; x5b; x3a; x3b; xee] 4 3 2 7 5)
   = size (mkRing [x00; x00; x1a; x1b; x00; x00; x00; x00; xee] 4 3 2 2 1)
   /\ esize (mkRing [x4a; x4b; x4a; x4b; x5a; x5b; x3a; x3b; xee] 4 3 2 7 5)
      = esize (mkRing [x00; x00; x1a; x1b; x00; x00; x00; x00; xee] 4 3 2 2 1)
   /\ nbytes
        (buffer (mkRing [x4a; x4b; x4a; x4b; x5a; x5b; x3a; x3b; xee]
                   4 3 2 7 5))
      = nbytes
          (buffer (mkRing [x00; x00; x1a; x1b; x00; x00; x00; x00; xee]
                     4 3 2 2 1)))
  /\ forall p,
       size (mkRing [x00; x00; x1a; x1b; x00; x00; x00; x00; xee] 4 3 2 2 1)
       * esize (mkRing [x00; x00; x1a; x1b; x00; x00; x00; x00; xee]
                  4 3 2 2 1) <= p ->
       byte_at
         (buffer (mkRing [x4a; x4b; x4a; x4b; x5a; x5b; x3a; x3b; xee]
                    4 3 2 7 5)) p
       = byte_at
           (buffer (mkRing [x00; x00; x1a; x1b; x00; x00; x00; x00; xee]
                      4 3 2 2 1)) p.
Proof.
  apply (run_keeps_remainder
           [Put [x2a; x2b; x3a; x3b; x4a; x4b; x5a; x5b] 4;
            Get [xff; xff; xff; xff; xff; xff] 3;
            Put [x4a; x4b; x5a; x5b] 2;
            Get [xff; xff; xff; xff; xff; xff] 1]
           (mkRing [x00; x00; x1a; x1b; x00; x00; x00; x00; xee] 4 3 2 2 1)
           (mkRing [x4a; x4b; x4a; x4b; x5a; x5b; x3a; x3b; xee] 4 3 2 7 5)
           [Wrote 3; Read 3 [x1a; x1b; x2a; x2b; x3a; x3b];
            Wrote 2; Read 1 [x4a; x4b; xff; xff; xff; xff]]).
  - closed_inv 2.
  - repeat constructor; vm_compute; discriminate.
  - vm_compute. reflexivity.
Defined.

Lemma written_cons (o : outcome) (outs : list outcome) :
  written (o :: outs) = written [o] + written outs.
Proof. destruct o; cbn [written]; lia. Qed.

Lemma fetched_cons (o : outcome) (outs : list outcome) :
  fetched (o :: outs) = fetched [o] + fetched outs.
Proof. destruct o; cbn [fetched]; lia. Qed.

(** X10: over any defined run of calls on an initialised buffer, [head]
    has advanced by the total the [ring_put] calls returned and [tail] by
    the total the [ring_get] calls returned, both modulo 2^32, while the
    stored count is exactly what it was plus the first total minus the
    second, with no modulus: the calls never report more read than was
    stored and written, nor more stored than the capacity. *)
Theorem run_counts
  (cs : list call) (rb rb' : ring) (outs : list outcome) :
  ring_inv rb -> Forall uint32_count cs -> run rb cs = Some (rb', outs) ->
  head rb' = wrap32 (head rb + written outs)
  /\ tail rb' = wrap32 (tail rb + fetched outs)
  /\ ring_used rb' = ring_used rb + written outs - fetched outs
  /\ 0 <= ring_used rb + written outs - fetched outs <= size rb.
Proof.
  revert rb rb' outs.
  assert (Hgoal : forall cs rb rb' outs,
    ring_inv rb -> Forall uint32_count cs -> run rb cs = Some (rb', outs) ->
    ring_inv rb' /\ size rb' = size rb
    /\ head rb' = wrap32 (head rb + written outs)
    /\ tail rb' = wrap32 (tail rb + fetched outs)
    /\ ring_used rb' = ring_used rb + written outs - fetched outs).
  { clear cs. induction cs as [|c cs IH]; intros rb rb' outs Hinv Hcs E.
    - cbn in E. injection E as <- <-. cbn [written fetched].
      rewrite !Z.add_0_r, Z.sub_0_r, !wrap32_small
        by (apply inv_head || apply inv_tail; assumption).
      auto.
    - inversion Hcs as [|c' cs' Hc Hcs' Ec]; subst. cbn [run] in E.
      destruct (step rb c) as [[rb1 o]|] eqn:E1; [|discriminate].
      cbn [bind fst snd] in E.
      destruct (run rb1 cs) as [[rb2 outs2]|] eqn:E2; [|discriminate].
      cbn [bind fst snd] in E. injection E as <- <-.
      destruct (step_shape rb c rb1 o Hinv Hc E1)
        as (Hinv1 & (Hs & _) & _ & Hh & Ht & Hu).
      destruct (IH rb1 rb2 outs2 Hinv1 Hcs' E2)
        as (Hinv2 & Hs2 & Hh2 & Ht2 & Hu2).
      rewrite written_cons, fetched_cons.
      split; [assumption|]. split; [congruence|].
      rewrite Hh2, Ht2, Hu2, Hh, Ht, Hu, !wrap32_add_l, !Z.add_assoc.
      repeat split; lia. }
  intros rb rb' outs Hinv Hcs E.
  destruct (Hgoal cs rb rb' outs Hinv Hcs E) as (Hinv' & Hs & Hh & Ht & Hu).
  pose proof (ring_used_range rb' Hinv') as Hr.
  rewrite Hu, Hs in Hr. auto.
Qed.

Lemma run_counts_witness :
  head (mkRing [x3a; x3b; x4a; x4b] 2 1 2 2 1)
  = wrap32 (head (mkRing [x0a; x0b; x1a; x1b] 2 1 2 UINT32_MAX UINT32_MAX)
            + written [Wrote 2; Read 1 [x2a; x2b]; Wrote 1; Wrote 0;
                       Read 1 [x3a; x3b]])
  /\ tail (mkRing [x3a; x3b; x4a; x4b] 2 1 2 2 1)
     = wrap32 (tail (mkRing [x0a; x0b; x1a; x1b] 2 1 2 UINT32_MAX UINT32_MAX)
               + fetched [Wrote 2; Read 1 [x2a; x2b]; Wrote 1; Wrote 0;
                          Read 1 [x3a; x3b]])
  /\ ring_used (mkRing [x3a; x3b; x4a; x4b] 2 1 2 2 1)
     = ring_used (mkRing [x0a; x0b; x1a; x1b] 2 1 2 UINT32_MAX UINT32_MAX)
       + written [Wrote 2; Read 1 [x2a; x2b]; Wrote 1; Wrote 0;
                  Read 1 [x3a; x3b]]
       - fetched [Wrote 2; Read 1 [x2a; x2b]; Wrote 1; Wrote 0;
                  Read 1 [x3a; x3b]]
  /\ 0 <= ring_used (mkRing [x0a; x0b; x1a; x1b] 2 1 2 UINT32_MAX UINT32_MAX)
          + written [Wrote 2; Read 1 [x2a; x2b]; Wrote 1; Wrote 0;
                     Read 1 [x3a; x3b]]
          - fetched [Wrote 2; Read 1 [x2a; x2b]; Wrote 1; Wrote 0;
                     Read 1 [x3a; x3b]]
     <= size (mkRing [x0a; x0b; x1a; x1b] 2 1 2 UINT32_MAX UINT32_MAX).
Proof.
  apply (run_counts
           [Put [x2a; x2b; x3a; x3b] 2; Get [xff; xff] 1;
            Put [x4a; x4b] 1; Put [x5a; x5b] 1; Get [xff; xff] 1]).
  - closed_inv 1.
  - repeat constructor; vm_compute; discriminate.
  - vm_compute. reflexivity.
Defined.

(** ** Calls in sequence *)

Lemma byte_at_app (l1 l2 : list byte) (k : Z) :
  0 <= k ->
  byte_at (l1 ++ l2) k
  = if k <? nbytes l1 then byte_at l1 k else byte_at l2 (k - nbytes l1).
Proof.
  intros Hk. unfold byte_at, nbytes. rewrite nth_error_app.
  destruct (Nat.ltb_spec (Z.to_nat k) (length l1)),
    (Z.ltb_spec k (Z.of_nat (length l1))); try lia; [reflexivity|].
  f_equal. lia.
Qed.

(** The byte offset of the slot [k] elements after logical index [h]. *)
Lemma slot_advance (rb : ring) (h k : Z) :
  ring_inv rb ->
  wrap32 (h + k) mod size rb * esize rb
  = (h mod size rb * esize rb + k * esize rb) mod (size rb * esize rb).
Proof.
  intros Hinv. pose proof (size_pos rb Hinv) as Hsz.
  pose proof (inv_esize rb Hinv) as He.
  rewrite wrap32_mod_size, <- Zplus_mod_idemp_l by assumption.
  replace (h mod size rb * esize rb + k * esize rb)
    with ((h mod size rb + k) * esize rb + 0) by ring.
  rewrite scaled_mod by lia. ring.
Qed.

(** X4: on an initialised buffer with room for [k] elements, writing an
    area of exactly [k] elements and then [m] elements of a second area is
    the same as one [ring_put] of [k + m] elements from the two areas laid
    end to end: the same struct and region afterwards, and the counts
    returned add up (the second call, and the single call, are cut at the
    free space alike). *)
Theorem put_put_is_one_put (rb : ring) (a b : list byte) (k m : Z) :
  ring_inv rb -> 0 <= k <= ring_space rb -> 0 <= m -> k + m < 2 ^ 32 ->
  nbytes a = k * esize rb ->
  Z.min m (ring_space rb - k) * esize rb <= nbytes b ->
  exists rb1 rb2,
    ring_put rb a k = Some (rb1, k)
    /\ ring_put rb1 b m = Some (rb2, Z.min m (ring_space rb - k))
    /\ ring_put rb (a ++ b) (k + m)
       = Some (rb2, k + Z.min m (ring_space rb - k)).
Proof.
  intros Hinv Hk Hm Hkm La Lb.
  pose proof (ring_used_range rb Hinv) as Hu.
  pose proof (ring_space_eq rb Hinv) as Hsp.
  pose proof (size_pos rb Hinv) as Hsz.
  pose proof (inv_esize rb Hinv) as He.
  set (n2 := Z.min m (ring_space rb - k)) in *.
  assert (Hn2 : 0 <= n2 /\ k + n2 <= size rb - ring_used rb) by lia.
  assert (Hmul : (k + n2) * esize rb = k * esize rb + n2 * esize rb) by ring.
  (* the first call *)
  assert (Hk' : 0 <= k <= size rb) by lia.
  destruct (__ring_put_bytes rb Hinv a k (head rb) Hk' ltac:(lia))
    as (b1 & E1 & L1 & H1).
  set (rb1 := set_head (set_buffer rb b1) (wrap32 (head rb + k))).
  assert (Hinv1 : ring_inv rb1)
    by (apply (ring_inv_put rb Hinv); [assumption|lia]).
  assert (Hu1 : ring_used rb1 = ring_used rb + k)
    by (apply (ring_used_put rb Hinv); lia).
  assert (Hsp1 : ring_space rb1 = ring_space rb - k).
  { rewrite (ring_space_eq rb1 Hinv1), Hu1, Hsp.
    unfold rb1. cbn [set_head set_buffer size]. ring. }
  assert (P1 : ring_put rb a k = Some (rb1, k)).
  { unfold ring_put. rewrite ring_put_count by assumption.
    replace (Z.min k (ring_space rb)) with k by lia.
    rewrite E1. reflexivity. }
  (* the second call *)
  assert (Hn2' : 0 <= n2 <= size rb1)
    by (unfold rb1; cbn [set_head set_buffer size]; lia).
  destruct (__ring_put_bytes rb1 Hinv1 b n2 (head rb1) Hn2' Lb)
    as (b2 & E2 & L2 & H2).
  set (rb2 := set_head (set_buffer rb1 b2) (wrap32 (head rb1 + n2))).
  assert (P2 : ring_put rb1 b m = Some (rb2, n2)).
  { unfold ring_put. rewrite ring_put_count, Hsp1 by assumption.
    fold n2. rewrite E2. reflexivity. }
  (* the single call *)
  assert (Hn3 : 0 <= k + n2 <= size rb) by lia.
  assert (Lab : (k + n2) * esize rb <= nbytes (a ++ b)).
  { unfold nbytes in *. rewrite length_app. lia. }
  destruct (__ring_put_bytes rb Hinv (a ++ b) (k + n2) (head rb) Hn3 Lab)
    as (b3 & E3 & L3 & H3).
  assert (P3 : ring_put rb (a ++ b) (k + m)
               = Some (set_head (set_buffer rb b3)
                         (wrap32 (head rb + (k + n2))), k + n2)).
  { unfold ring_put. rewrite ring_put_count by assumption.
    replace (Z.min (k + m) (ring_space rb)) with (k + n2) by lia.
    rewrite E3. reflexivity. }
  exists rb1, rb2. split; [exact P1|]. split; [exact P2|].
  rewrite P3. do 2 f_equal.
  unfold rb2, rb1, set_head, set_buffer.
  cbn [buffer size mask esize head tail].
  rewrite wrap32_add_l, Z.add_assoc. f_equal.
  (* the regions agree byte for byte *)
  apply byte_at_ext. intros p Hp.
  rewrite (H3 p Hp), (H2 p Hp). cbv zeta.
  cbn [rb1 set_head set_buffer buffer size esize head].
  rewrite (H1 p Hp). cbv zeta.
  rewrite (slot_advance rb (head rb) k Hinv).
  destruct (region_facts rb Hinv (head rb)) as (_ & HS & _ & Hoff0 & Hoff1).
  set (hoff := head rb mod size rb * esize rb) in *.
  set (sz := size rb * esize rb) in *.
  rewrite Zminus_mod_idemp_r.
  replace (p - (hoff + k * esize rb)) with (p - hoff - k * esize rb) by ring.
  rewrite <- (Zminus_mod_idemp_l (p - hoff)).
  pose proof (Z.mod_pos_bound (p - hoff) sz HS) as Hd0.
  set (d0 := (p - hoff) mod sz) in *.
  assert (Hke : 0 <= k * esize rb <= sz) by (subst sz; nia).
  assert (Hkn : 0 <= n2 * esize rb /\ (k + n2) * esize rb <= sz)
    by (subst sz; nia).
  rewrite (mod_once_down (d0 - k * esize rb) sz) by lia.
  rewrite (byte_at_app a b d0) by lia. rewrite La.
  destruct (Z.ltb_spec (d0 - k * esize rb) 0);
    cases_cmp; try lia; try reflexivity; f_equal; lia.
Qed.

Lemma put_put_is_one_put_witness :
  exists rb1 rb2,
    ring_put (sample 7 6) [x4a; x4b] 1 = Some (rb1, 1)
    /\ ring_put rb1 [x5a; x5b; x6a; x6b; x7a; x7b] 3
       = Some (rb2, Z.min 3 (ring_space (sample 7 6) - 1))
    /\ ring_put (sample 7 6)
         ([x4a; x4b] ++ [x5a; x5b; x6a; x6b; x7a; x7b]) (1 + 3)
       = Some (rb2, 1 + Z.min 3 (ring_space (sample 7 6) - 1)).
Proof.
  apply (put_put_is_one_put (sample 7 6) [x4a; x4b]
           [x5a; x5b; x6a; x6b; x7a; x7b] 1 3).
  - closed_inv 2.
  - vm_compute. split; discriminate.
  - lia.
  - lia.
  - reflexivity.
  - vm_compute. discriminate.
Defined.

(** X5: on an initialised buffer, reading [k] elements into the start of
    an area and then [m] elements into what follows them is the same as
    one [ring_get] of [k + m] elements into the area: the same struct
    afterwards, the same bytes in the area, and the counts returned add
    up (also when either call is cut short by the stored count). *)
Theorem get_get_is_one_get (rb : ring) (dst : list byte) (k m : Z) :
  ring_inv rb -> 0 <= k -> 0 <= m -> k + m < 2 ^ 32 ->
  Z.min (k + m) (ring_used rb) * esize rb <= nbytes dst ->
  exists rb1 d1 rb2 d2,
    ring_get rb dst k = Some (rb1, d1, Z.min k (ring_used rb))
    /\ ring_get rb1 (skipn (Z.to_nat (Z.min k (ring_used rb) * esize rb)) d1) m
       = Some (rb2, d2, Z.min m (ring_used rb - Z.min k (ring_used rb)))
    /\ ring_get rb dst (k + m)
       = Some (rb2,
               firstn (Z.to_nat (Z.min k (ring_used rb) * esize rb)) d1 ++ d2,
               Z.min k (ring_used rb)
               + Z.min m (ring_used rb - Z.min k (ring_used rb))).
Proof.
  intros Hinv Hk Hm Hkm Hdst.
  pose proof (ring_used_range rb Hinv) as Hu.
  pose proof (inv_esize rb Hinv) as He.
  set (n1 := Z.min k (ring_used rb)).
  set (n2 := Z.min m (ring_used rb - n1)).
  assert (Hn : Z.min (k + m) (ring_used rb) = n1 + n2) by lia.
  rewrite Hn in Hdst.
  assert (Hn1 : 0 <= n1 <= ring_used rb) by lia.
  assert (Hn2 : 0 <= n2) by lia.
  assert (Hmul : (n1 + n2) * esize rb = n1 * esize rb + n2 * esize rb)
    by ring.
  assert (Hb1 : 0 <= n1 * esize rb) by nia.
  assert (Hb2 : 0 <= n2 * esize rb) by nia.
  (* the first call *)
  pose proof (ring_get_defined rb Hinv dst k Hk) as G1. fold n1 in G1.
  specialize (G1 ltac:(lia)).
  set (rb1 := set_tail rb (wrap32 (tail rb + n1))) in *.
  set (c1 := concat (map (element rb) (indices (tail rb) n1))) in *.
  assert (Lc1 : length c1 = Z.to_nat (n1 * esize rb)).
  { pose proof (nbytes_concat (esize rb) _
                  (elements_sized rb Hinv (indices (tail rb) n1))) as L.
    rewrite length_map, length_indices in L. fold c1 in L.
    unfold nbytes in L. lia. }
  assert (Hinv1 : ring_inv rb1) by (apply (ring_inv_get rb Hinv); lia).
  assert (Hu1 : ring_used rb1 = ring_used rb - n1)
    by (apply (ring_used_get rb Hinv); lia).
  (* the second call, into what follows the first [n1] elements *)
  assert (Hskip : skipn (Z.to_nat (n1 * esize rb))
                    (c1 ++ skipn (Z.to_nat (n1 * esize rb)) dst)
                  = skipn (Z.to_nat (n1 * esize rb)) dst).
  { rewrite skipn_app, Lc1, Nat.sub_diag, skipn_O.
    rewrite skipn_all2 by lia. reflexivity. }
  assert (Hfirst : firstn (Z.to_nat (n1 * esize rb))
                     (c1 ++ skipn (Z.to_nat (n1 * esize rb)) dst)
                   = c1).
  { rewrite firstn_app, Lc1, Nat.sub_diag, firstn_O, app_nil_r.
    apply firstn_all2. lia. }
  pose proof (ring_get_defined rb1 Hinv1
                (skipn (Z.to_nat (n1 * esize rb)) dst) m Hm) as G2.
  rewrite Hu1 in G2. fold n2 in G2.
  change (esize rb1) with (esize rb) in G2.
  change (tail rb1) with (wrap32 (tail rb + n1)) in G2.
  change (element rb1) with (element rb) in G2.
  assert (Lskip : n2 * esize rb
                  <= nbytes (skipn (Z.to_nat (n1 * esize rb)) dst)).
  { unfold nbytes in *. rewrite length_skipn. lia. }
  specialize (G2 Lskip).
  (* the single call *)
  pose proof (ring_get_defined rb Hinv dst (k + m) ltac:(lia)) as G3.
  rewrite Hn in G3. specialize (G3 Hdst).
  eexists _, _, _, _. split; [exact G1|].
  rewrite Hskip, Hfirst. split; [exact G2|].
  rewrite G3. f_equal. f_equal. f_equal.
  - unfold rb1, set_tail. cbn [buffer size mask esize head tail].
    rewrite wrap32_add_l, Z.add_assoc. reflexivity.
  - rewrite indices_app, map_app, concat_app by lia.
    fold c1. rewrite <- app_assoc. do 2 f_equal.
    rewrite skipn_skipn. f_equal. lia.
Qed.

Lemma get_get_is_one_get_witness :
  exists rb1 d1 rb2 d2,
    ring_get (sample 7 4) [xf0; xf1; xf2; xf3; xf4; xf5; xf6; xf7] 1
    = Some (rb1, d1, Z.min 1 (ring_used (sample 7 4)))
    /\ ring_get rb1
         (skipn (Z.to_nat (Z.min 1 (ring_used (sample 7 4))
                           * esize (sample 7 4))) d1) 3
       = Some (rb2, d2,
               Z.min 3 (ring_used (sample 7 4)
                        - Z.min 1 (ring_used (sample 7 4))))
    /\ ring_get (sample 7 4) [xf0; xf1; xf2; xf3; xf4; xf5; xf6; xf7] (1 + 3)
       = Some (rb2,
               firstn (Z.to_nat (Z.min 1 (ring_used (sample 7 4))
                                 * esize (sample 7 4))) d1 ++ d2,
               Z.min 1 (ring_used (sample 7 4))
               + Z.min 3 (ring_used (sample 7 4)
                          - Z.min 1 (ring_used (sample 7 4)))).
Proof.
  apply (get_get_is_one_get (sample 7 4)
           [xf0; xf1; xf2; xf3; xf4; xf5; xf6; xf7] 1 3).
  - closed_inv 2.
  - lia.
  - lia.
  - lia.
  - vm_compute. discriminate.
Defined.

(** ** The random-length rounds of main.c *)

Lemma store16_bounds (tmp : list byte) (j : Z) (v tmp' : list byte) :
  store16 tmp j v = Some tmp' ->
  nbytes tmp' = nbytes tmp /\ 2 * j + 2 <= nbytes tmp.
Proof.
  unfold store16. intros E. split.
  - exact (memcpy_nbytes _ _ _ _ _ _ E).
  - apply memcpy_bounds in E. lia.
Qed.

(** The filling loop runs off the end of an area shorter than two bytes
    per iteration. *)
Lemma fill_from_overflows (v : list byte) (todo : nat) :
  forall (tmp : list byte) (j : Z),
    0 <= j -> (1 <= todo)%nat -> nbytes tmp < 2 * (j + Z.of_nat todo) ->
    fill_from tmp v j todo = None.
Proof.
  induction todo as [|todo IH]; intros tmp j Hj Htodo Hshort; [lia|].
  cbn [fill_from].
  destruct (store16 tmp j v) as [tmp'|] eqn:E; [|reflexivity].
  cbn [bind]. apply store16_bounds in E. destruct E as [L Hfit].
  apply IH; lia.
Qed.

(** With two bytes per iteration the loop is defined and keeps the length
    of the area. *)
Lemma fill_from_defined (v : list byte) (todo : nat) :
  forall (tmp : list byte) (j : Z),
    0 <= j -> 2 <= nbytes v -> 2 * (j + Z.of_nat todo) <= nbytes tmp ->
    exists tmp', fill_from tmp v j todo = Some tmp'
                 /\ nbytes tmp' = nbytes tmp.
Proof.
  induction todo as [|todo IH]; intros tmp j Hj Hv Hfit.
  - exists tmp. split; reflexivity.
  - cbn [fill_from]. unfold store16.
    destruct (memcpy_defined tmp (2 * j) v 0 2) as [tmp1 E]; try lia.
    rewrite E. cbn [bind].
    pose proof (memcpy_nbytes _ _ _ _ _ _ E) as L.
    destruct (IH tmp1 (j + 1)) as (tmp' & E' & L'); try lia.
    exists tmp'. split; [exact E'|lia].
Qed.

(** Had the area two bytes per element, a round on an empty buffer would
    pass both tests and leave the buffer empty: what makes the round
    undefined is the size of the allocation alone. *)
Lemma test_round_passes_when_sized
  (rb : ring) (tmp0 v : list byte) (w : Z) :
  ring_inv rb -> ring_used rb = 0 -> esize rb = 2 -> 0 <= w <= size rb ->
  nbytes v = 2 -> 2 * w <= nbytes tmp0 ->
  exists rb', test_round rb tmp0 v w = Some (rb', true)
              /\ ring_inv rb' /\ ring_used rb' = 0.
Proof.
  intros Hinv Hempty He Hw Hv Htmp.
  pose proof (ring_space_eq rb Hinv) as Hsp.
  destruct (fill_from_defined v (Z.to_nat w) tmp0 0) as (tmp & Ef & Lf);
    try lia.
  assert (Hmin : Z.min w (ring_space rb) = w) by lia.
  destruct (ring_put_defined rb Hinv tmp w ltac:(lia)) as (b & _ & Lb & Ep);
    [rewrite Hmin; lia|].
  rewrite Hmin in Ep.
  set (rb1 := set_head (set_buffer rb b) (wrap32 (head rb + w))) in *.
  assert (Hinv1 : ring_inv rb1)
    by (apply (ring_inv_put rb Hinv); [assumption|lia]).
  assert (Hu1 : ring_used rb1 = w)
    by (unfold rb1; rewrite <- (Z.add_0_l w) at 2; rewrite <- Hempty;
        apply (ring_used_put rb Hinv); lia).
  assert (Hmin1 : Z.min w (ring_used rb1) = w) by lia.
  pose proof (ring_get_defined rb1 Hinv1 tmp w ltac:(lia)) as Eg.
  rewrite Hmin1 in Eg.
  change (esize rb1) with (esize rb) in Eg. specialize (Eg ltac:(lia)).
  eexists. unfold test_round. rewrite Ef. cbn [bind]. rewrite Ep.
  cbn [bind fst snd]. rewrite Z.eqb_refl. cbn [negb]. rewrite Eg.
  cbn [bind fst snd]. rewrite Z.eqb_refl.
  split; [reflexivity|]. split.
  - apply (ring_inv_get rb1 Hinv1). lia.
  - replace 0 with (ring_used rb1 - w) by lia.
    apply (ring_used_get rb1 Hinv1). lia.
Qed.

(** Whatever the area holds: on an initialised buffer with 2-byte elements
    and room for [w] elements, [ring_put] of [w >= 1] elements from an area
    of [w] bytes reads past its end. *)
Lemma round_put_reads_past_area (rb : ring) (tmp : list byte) (w : Z) :
  ring_inv rb -> esize rb = 2 -> 1 <= w <= ring_space rb -> w < 2 ^ 32 ->
  nbytes tmp = w ->
  ring_put rb tmp w = None.
Proof.
  intros Hinv He Hw Hw' L.
  destruct (ring_put rb tmp w) as [r|] eqn:E; [|reflexivity].
  pose proof (ring_put_area rb Hinv tmp w r ltac:(lia) E) as Ha.
  rewrite He in Ha. lia.
Qed.

(** X9: a round of the random-length test of [main.c] allocates
    [write_len] bytes for [write_len] elements of 2 bytes.  For every
    [write_len >= 1], whatever the buffer and the allocated bytes are, the
    round is undefined behaviour: its filling loop stores past the end of
    the allocation before [ring_put] is reached. *)
Theorem test_round_overflows (rb : ring) (tmp0 v : list byte) (w : Z) :
  1 <= w -> nbytes tmp0 = w ->
  test_round rb tmp0 v w = None.
Proof.
  intros Hw L. unfold test_round.
  rewrite (fill_from_overflows v (Z.to_nat w) tmp0 0) by lia.
  reflexivity.
Qed.

Lemma test_round_overflows_witness :
  test_round (sample 0 0) [x00; x00; x00] [x07; x00] 3 = None.
Proof.
  apply (test_round_overflows (sample 0 0) [x00; x00; x00] [x07; x00] 3).
  - lia.
  - reflexivity.
Defined.
